(** * Machine event publishing ([cmd/podman/machine]): model and properties

    The Go package keeps three package-level variables ([sockPaths],
    [openEventSock], [sockets]) and four functions around them:
    [initMachineEvents] (cobra pre-run hook), [resolveEventSock],
    [newMachineEvent] (publish) and [closeMachineEvents] (post-run hook).

    The model is a shallow embedding: package-level variables become the
    fields of a [State] record threaded through a small state monad, every
    call into the operating system or into a library is answered by a
    [World] of oracles and recorded in a chronological [trace]. *)

From Stdlib Require Import String Ascii List NArith ZArith Bool Arith Lia.
Import ListNotations.
Local Open Scope string_scope.
Local Open Scope list_scope.

Set Implicit Arguments.

(* ================================================================== *)
(** ** Regular expressions, as far as [regexp.MatchString] is used     *)
(* ================================================================== *)

Module Regexp.

(** Syntax of the fragment of RE2 needed for the pattern of
    [resolveEventSock]. [Dot] is Go's [.] without the [s] flag: any
    character but a line feed. [AnyChar] only serves the unanchored
    search of [MatchString]. *)
Inductive regex : Type :=
| Void
| Eps
| Lit (c : ascii)
| Dot
| AnyChar
| Cat (r s : regex)
| Alt (r s : regex)
| Star (r : regex).

Definition newline : ascii := "010"%char.

Fixpoint literal (s : string) : regex :=
  match s with
  | EmptyString => Eps
  | String c s' => Cat (Lit c) (literal s')
  end.

Fixpoint nullable (r : regex) : bool :=
  match r with
  | Void | Lit _ | Dot | AnyChar => false
  | Eps | Star _ => true
  | Cat r s => nullable r && nullable s
  | Alt r s => nullable r || nullable s
  end.

(** Brzozowski derivative. *)
Fixpoint deriv (c : ascii) (r : regex) : regex :=
  match r with
  | Void | Eps => Void
  | Lit d => if Ascii.eqb c d then Eps else Void
  | Dot => if Ascii.eqb c newline then Void else Eps
  | AnyChar => Eps
  | Cat r s =>
      if nullable r then Alt (Cat (deriv c r) s) (deriv c s)
      else Cat (deriv c r) s
  | Alt r s => Alt (deriv c r) (deriv c s)
  | Star r => Cat (deriv c r) (Star r)
  end.

(** Whole-string match. *)
Fixpoint full_match (r : regex) (s : string) : bool :=
  match s with
  | EmptyString => nullable r
  | String c s' => full_match (deriv c r) s'
  end.

(** [Regexp.MatchString] of Go: reports whether the string contains any
    match of the expression (the search is not anchored). *)
Definition MatchString (r : regex) (s : string) : bool :=
  full_match (Cat (Star AnyChar) (Cat r (Star AnyChar))) s.

(** Denotation, used to state what the matcher accepts. *)
Inductive matches : regex -> string -> Prop :=
| MEps : matches Eps ""
| MLit c : matches (Lit c) (String c "")
| MDot c : c <> newline -> matches Dot (String c "")
| MAny c : matches AnyChar (String c "")
| MCat r s u v : matches r u -> matches s v -> matches (Cat r s) (u ++ v)
| MAltL r s u : matches r u -> matches (Alt r s) u
| MAltR r s u : matches s u -> matches (Alt r s) u
| MStar0 r : matches (Star r) ""
| MStarS r u v :
    matches r u -> matches (Star r) v -> matches (Star r) (u ++ v).

(** No line feed occurs in the string. *)
Fixpoint no_newline (s : string) : bool :=
  match s with
  | EmptyString => true
  | String c s' => negb (Ascii.eqb c newline) && no_newline s'
  end.

End Regexp.

(* ================================================================== *)
(** ** Values of the Go runtime and libraries the package handles      *)
(* ================================================================== *)

Module Go.

(** [syscall.Errno]. *)
Definition Errno := N.
Definition ENOENT : Errno := 2%N.
Definition EACCES : Errno := 13%N.

(** The error values that can reach this package. [SkipDir] is the
    sentinel of [path/filepath]; [PathError] is what [os.Lstat] and the
    directory reader return; [errorString] stands for every other
    error (runtime directory lookup, dialing, writing, closing,
    serialising). *)
Inductive error : Type :=
| SkipDir
| PathError (op path : string) (errno : Errno)
| errorString (msg : string).

(** [errors.Is(err, os.ErrNotExist)]: a [PathError] unwraps to its
    [Errno], which is [ErrNotExist] exactly when it is [ENOENT]. *)
Definition Is_ErrNotExist (e : error) : bool :=
  match e with
  | PathError _ _ n => N.eqb n ENOENT
  | _ => false
  end.

Definition is_SkipDir (e : error) : bool :=
  match e with SkipDir => true | _ => false end.

(** [fs.FileMode]: a 32-bit word, the type bits as in package [io/fs]. *)
Definition FileMode := N.
Definition ModeDir        : FileMode := N.shiftl 1 31.
Definition ModeSymlink    : FileMode := N.shiftl 1 27.
Definition ModeDevice     : FileMode := N.shiftl 1 26.
Definition ModeNamedPipe  : FileMode := N.shiftl 1 25.
Definition ModeSocket     : FileMode := N.shiftl 1 24.
Definition ModeCharDevice : FileMode := N.shiftl 1 21.
Definition ModeIrregular  : FileMode := N.shiftl 1 19.
Definition ModeType : FileMode :=
  N.lor ModeDir (N.lor ModeSymlink (N.lor ModeNamedPipe
    (N.lor ModeSocket (N.lor ModeDevice (N.lor ModeCharDevice ModeIrregular))))).

(** [fs.DirEntry]: the name of the entry and its mode. *)
Record DirEntry : Type := { Name : string; Mode : FileMode }.

Definition IsDir (d : DirEntry) : bool :=
  negb (N.eqb (N.land (Mode d) ModeDir) 0).

Definition Type_ (d : DirEntry) : FileMode := N.land (Mode d) ModeType.

(** What the file system holds below a path: the entry itself and,
    for a directory, what reading it yields (the entries, or the
    operation and [Errno] of the failure). *)
Unset Elimination Schemes.
Inductive FsNode : Type :=
| Node (entry : DirEntry) (dirs : list FsNode)
       (rderr : option (string * Errno)).
Set Elimination Schemes.

Definition entry_of (n : FsNode) : DirEntry :=
  match n with Node d _ _ => d end.

(** Induction over a file system tree: the property may be assumed of
    every entry of a directory. *)
Section FsNode_ind.
Variable P : FsNode -> Prop.
Hypothesis HNode :
  forall d dirs rderr, Forall P dirs -> P (Node d dirs rderr).

Fixpoint FsNode_ind (n : FsNode) : P n :=
  match n with
  | Node d dirs rderr =>
      HNode d rderr
        ((fix all (ds : list FsNode) : Forall P ds :=
            match ds with
            | [] => Forall_nil P
            | d1 :: ds' => Forall_cons d1 (FsNode_ind d1) (all ds')
            end) dirs)
  end.
End FsNode_ind.

(** [net.Conn]: an open connection to a unix socket address. *)
Inductive Conn : Type := UnixConn (fd : nat) (raddr : string).

(** Modelled from the spec: [events.Event] (package [libpod/events], not
    part of the sources at hand). The spec gives it a Type (category
    tag), a Status, a Time stamped at publish, "plus caller-supplied
    contextual fields", and names the machine category ["machine"]. *)
Record Event : Type := {
  Type' : string;
  Status : string;
  Time : Z;
  Context : list (string * string)
}.

Definition events_Machine : string := "machine".

Inductive Level : Type := Debug | Warn | Error.

Inductive LogArg : Type :=
| LStr (s : string)
| LErr (e : error).

(** How [filepath.WalkDir] calls its [fs.WalkDirFunc]:
    [fn(path, d, nil)] on visiting an entry, [fn(path, d, err)] when
    reading directory [d] failed, [fn(root, nil, err)] when the root
    could not be stat'ed. *)
Inductive WalkCall : Type :=
| Visit (d : DirEntry)
| ReadDirFailed (d : DirEntry) (err : error)
| LstatFailed (err : error).

End Go.
Import Go.

(* ================================================================== *)
(** ** The process: state, outside world, trace                        *)
(* ================================================================== *)

(** Every call that leaves the package, in the order it is made, with
    what it returned where the package looks at it. *)
Inductive Action : Type :=
| ALookupEnv (name : string)
| AGetRuntimeDir
| ALstat (path : string)
| AReadDir (path : string)
| ADial (path : string) (r : Conn + error)
| ANow (t : Z)
| AMarshal (e : Event)
| AWrite (c : Conn) (payload : string) (r : option error)
| AClose (c : Conn) (r : option error)
| ALog (lvl : Level) (format : string) (args : list LogArg).

(** The package-level variables [sockPaths], [openEventSock] (the
    [sync.Once]: has [Do] already run), [sockets], and the trace. *)
Record State : Type := {
  sockPaths : list string;
  openEventSock : bool;
  sockets : list Conn;
  trace : list Action
}.

(** Process start: Go zero values. *)
Definition initial : State :=
  {| sockPaths := []; openEventSock := false; sockets := []; trace := [] |}.

(** The answers of the operating system and of the libraries. *)
Record World : Type := {
  os_Args : list string;
  os_LookupEnv : string -> option string;
  util_GetRuntimeDir : string + error;
  filepath_Join : string -> string -> string;
  os_Lstat : string -> FsNode + Errno;
  net_Dial : string -> Conn + error;
  conn_Write : Conn -> string -> option error;
  conn_Close : Conn -> option error;
  (** the clock, read at a logical instant (number of actions so far) *)
  time_Now : nat -> Z;
  json_Marshal : Event -> string + error
}.

(** *** State monad *)

Definition M (A : Type) : Type := State -> A * State.

Definition ret {A} (a : A) : M A := fun st => (a, st).

Definition bind {A B} (m : M A) (k : A -> M B) : M B :=
  fun st => let (a, st') := m st in k a st'.

Declare Scope machine_scope.
Delimit Scope machine_scope with machine.
Notation "x <- m ;; k" := (bind m (fun x => k))
  (at level 61, m at next level, right associativity) : machine_scope.
Notation "m ;;; k" := (bind m (fun _ => k))
  (at level 61, right associativity) : machine_scope.
Local Open Scope machine_scope.

Definition emit (a : Action) : M unit :=
  fun st =>
    (tt, {| sockPaths := sockPaths st; openEventSock := openEventSock st;
            sockets := sockets st; trace := trace st ++ [a] |}).

Definition get_sockPaths : M (list string) := fun st => (sockPaths st, st).
Definition get_sockets : M (list Conn) := fun st => (sockets st, st).

(** [sockets = append(sockets, conn)] *)
Definition append_socket (c : Conn) : M unit :=
  fun st =>
    (tt, {| sockPaths := sockPaths st; openEventSock := openEventSock st;
            sockets := sockets st ++ [c]; trace := trace st |}).

Definition logrus (lvl : Level) (format : string) (args : list LogArg) : M unit :=
  emit (ALog lvl format args).

(** [sync.Once.Do]: the body runs on the first call only. *)
Definition Once_Do (body : M unit) : M unit :=
  fun st =>
    if openEventSock st then (tt, st)
    else body {| sockPaths := sockPaths st; openEventSock := true;
                 sockets := sockets st; trace := trace st |}.

(* ================================================================== *)
(** ** [path/filepath.WalkDir]                                          *)
(* ================================================================== *)

Section WalkDir.

Variable W : World.

(** A [fs.WalkDirFunc] closing over a local variable of type [A]. *)
Definition WalkDirFunc (A : Type) : Type :=
  string -> WalkCall -> A -> M (option error * A).

(** [walkDir]: visit the entry; for a directory read it, report a read
    failure through a second call, then descend into the entries in
    the order they were returned. [SkipDir] from the first call on a
    directory skips it, from an entry it ends the enclosing loop. *)
Fixpoint walkDir {A} (fn : WalkDirFunc A) (path : string) (n : FsNode) (a : A)
  : M (option error * A) :=
  match n with
  | Node d dirs rderr =>
      r <- fn path (Visit d) a ;;
      match r with
      | (Some err, a) =>
          ret (if is_SkipDir err && IsDir d then None else Some err, a)
      | (None, a) =>
          if negb (IsDir d) then ret (None, a) else
          emit (AReadDir path) ;;;
          r <- match rderr with
               | Some (op, errno) =>
                   fn path (ReadDirFailed d (PathError op path errno)) a
               | None => ret (None, a)
               end ;;
          match r with
          | (Some err, a) => ret (Some err, a)
          | (None, a) =>
              (fix range (ds : list FsNode) (a : A) : M (option error * A) :=
                 match ds with
                 | [] => ret (None, a)
                 | d1 :: ds' =>
                     r <- walkDir fn (filepath_Join W path (Name (entry_of d1))) d1 a ;;
                     match r with
                     | (Some err, a) =>
                         if is_SkipDir err then ret (None, a)
                         else ret (Some err, a)
                     | (None, a) => range ds' a
                     end
                 end) dirs a
          end
      end
  end.

(** [WalkDir]: stat the root without following links, then walk. *)
Definition WalkDir {A} (root : string) (fn : WalkDirFunc A) (a : A)
  : M (option error * A) :=
  emit (ALstat root) ;;;
  r <- match os_Lstat W root with
       | inr errno => fn root (LstatFailed (PathError "lstat" root errno)) a
       | inl n => walkDir fn root n a
       end ;;
  match r with
  | (Some err, a) => ret (if is_SkipDir err then None else Some err, a)
  | (None, a) => ret (None, a)
  end.

End WalkDir.

(* ================================================================== *)
(** ** The package                                                      *)
(* ================================================================== *)

Section Machine.

Variable W : World.

(** [regexp.MustCompile(`machine_events.*\.sock`)] *)
Definition re : Regexp.regex :=
  Regexp.Cat (Regexp.literal "machine_events")
    (Regexp.Cat (Regexp.Star Regexp.Dot) (Regexp.literal ".sock")).

(** The closure [fn] of [resolveEventSock]; its captured local
    [sockPaths] is the accumulator. *)
Definition fn : WalkDirFunc (list string) :=
  fun path call sockPaths =>
    match call with
    | ReadDirFailed _ err | LstatFailed err => ret (Some err, sockPaths)
    | Visit info =>
        if IsDir info then ret (None, sockPaths)
        else if negb (N.eqb (Type_ info) ModeSocket) then ret (None, sockPaths)
        else if negb (Regexp.MatchString re (Name info)) then ret (None, sockPaths)
        else
          logrus Debug "Machine events will be published on: %q" [LStr path] ;;;
          ret (None, sockPaths ++ [path])
    end.

Definition resolveEventSock : M (list string * option error) :=
  emit (ALookupEnv "PODMAN_MACHINE_EVENTS_SOCK") ;;;
  match os_LookupEnv W "PODMAN_MACHINE_EVENTS_SOCK" with
  | Some sock => ret ([sock], None)
  | None =>
      emit AGetRuntimeDir ;;;
      match util_GetRuntimeDir W with
      | inr err =>
          logrus Warn
            "Failed to get runtime dir, machine events will not be published: %s"
            [LErr err] ;;;
          ret ([], None)
      | inl xdg =>
          r <- WalkDir W (filepath_Join W xdg "podman") fn [] ;;
          match r with
          | (Some err, _) =>
              if Is_ErrNotExist err then ret ([], None)
              else ret ([], Some err)
          | (None, sockPaths) => ret (sockPaths, None)
          end
      end
  end.

(** The dial loop, written out twice in the source (in
    [initMachineEvents] and in the [Do] body of [newMachineEvent]). *)
Fixpoint dialLoop (paths : list string) : M unit :=
  match paths with
  | [] => ret tt
  | path :: rest =>
      let r := net_Dial W path in
      emit (ADial path r) ;;;
      match r with
      | inr err =>
          logrus Warn "Failed to open event socket %q: %v" [LStr path; LErr err]
      | inl conn =>
          logrus Debug "Machine event socket %q found" [LStr path] ;;;
          append_socket conn
      end ;;;
      dialLoop rest
  end.

(** The pre-run hook. [sockPaths, err := resolveEventSock()] declares
    a local [sockPaths]: the package-level variable is not written. *)
Definition initMachineEvents (cmd : string) : M (option error) :=
  logrus Debug "Called machine %s.PersistentPreRunE(%s)"
    [LStr cmd; LStr (String.concat " " (os_Args W))] ;;;
  r <- resolveEventSock ;;
  match r with
  | (_, Some err) => ret (Some err)
  | (sockPaths, None) =>
      if Nat.eqb (length sockPaths) 0 then ret None
      else dialLoop sockPaths ;;; ret None
  end.

Definition stamp (status : string) (now : Z) (event : Event) : Event :=
  {| Type' := events_Machine; Status := status; Time := now;
     Context := Context event |}.

Fixpoint writeLoop (payload : string) (socks : list Conn) : M unit :=
  match socks with
  | [] => ret tt
  | sock :: rest =>
      let r := conn_Write W sock payload in
      emit (AWrite sock payload r) ;;;
      match r with
      | Some err => logrus Error "Unable to write machine event: %q" [LErr err]
      | None => ret tt
      end ;;;
      writeLoop payload rest
  end.

Definition now : M Z :=
  fun st =>
    let t := time_Now W (length (trace st)) in
    (t, snd (emit (ANow t) st)).

(** Publish. It returns nothing. *)
Definition newMachineEvent (status : string) (event : Event) : M unit :=
  Once_Do (
    sockPaths <- get_sockPaths ;;
    if Nat.eqb (length sockPaths) 0 then ret tt
    else dialLoop sockPaths) ;;;
  t <- now ;;
  let event := stamp status t event in
  emit (AMarshal event) ;;;
  match json_Marshal W event with
  | inr err => logrus Error "Unable to format machine event: %q" [LErr err]
  | inl payload =>
      socks <- get_sockets ;;
      writeLoop payload socks
  end.

Fixpoint closeLoop (socks : list Conn) : M unit :=
  match socks with
  | [] => ret tt
  | sock :: rest =>
      emit (AClose sock (conn_Close W sock)) ;;;
      closeLoop rest
  end.

(** The post-run hook. *)
Definition closeMachineEvents (cmd : string) : M (option error) :=
  logrus Debug "Called machine %s.PersistentPostRunE(%s)"
    [LStr cmd; LStr (String.concat " " (os_Args W))] ;;;
  socks <- get_sockets ;;
  closeLoop socks ;;;
  ret None.

End Machine.

(* ================================================================== *)
(** ** Process runs                                                     *)
(* ================================================================== *)

(** The entry points of the package as seen from the rest of the
    program. *)
Inductive Call : Type :=
| PreRun (cmd : string)
| Publish (status : string) (event : Event)
| PostRun (cmd : string).

Definition call (W : World) (c : Call) (st : State) : State :=
  match c with
  | PreRun cmd => snd (initMachineEvents W cmd st)
  | Publish status event => snd (newMachineEvent W status event st)
  | PostRun cmd => snd (closeMachineEvents W cmd st)
  end.

(** Any sequence of calls, from a given state. *)
Definition run (W : World) (cs : list Call) (st : State) : State :=
  fold_left (fun st c => call W c st) cs st.

Definition publishes (body : list (string * Event)) : list Call :=
  map (fun se => Publish (fst se) (snd se)) body.

(** Modelled from the spec: the command-boundary contract of the CLI
    layer (cobra's command runner is not part of the sources at hand).
    "The pre-hook must run before any user-facing machine subcommand
    executes; the post-hook must run after, even on error"; "errors from
    resolution propagate to the caller and abort the command". The
    command body is the publish calls it makes and its outcome. *)
Definition executeMachineCmd (W : World) (cmd : string)
    (body : list (string * Event)) (outcome : option error) : M (option error) :=
  (pre <- initMachineEvents W cmd ;;
   match pre with
   | Some err => ret (Some err)
   | None =>
       (fun st => (tt, run W (publishes body) st)) ;;;
       post <- closeMachineEvents W cmd ;;
       ret (match outcome with Some err => Some err | None => post end)
   end)%machine.

(* ================================================================== *)
(** ** Reading traces                                                   *)
(* ================================================================== *)

(** The state with more actions on its trace. *)
Definition add_trace (st : State) (l : list Action) : State :=
  {| sockPaths := sockPaths st; openEventSock := openEventSock st;
     sockets := sockets st; trace := trace st ++ l |}.

(** Paths dialed, in order. *)
Fixpoint dials (t : list Action) : list string :=
  match t with
  | [] => []
  | ADial p _ :: t' => p :: dials t'
  | _ :: t' => dials t'
  end.

(** Write attempts, in order: connection and payload. *)
Fixpoint writes (t : list Action) : list (Conn * string) :=
  match t with
  | [] => []
  | AWrite c payload _ :: t' => (c, payload) :: writes t'
  | _ :: t' => writes t'
  end.

(** Close attempts, in order. *)
Fixpoint closes (t : list Action) : list Conn :=
  match t with
  | [] => []
  | AClose c _ :: t' => c :: closes t'
  | _ :: t' => closes t'
  end.

(** Events handed to the serialiser, in order. *)
Fixpoint marshalled (t : list Action) : list Event :=
  match t with
  | [] => []
  | AMarshal e :: t' => e :: marshalled t'
  | _ :: t' => marshalled t'
  end.

(** Number of endpoint resolutions (each starts by looking up the
    override variable). *)
Fixpoint resolutions (t : list Action) : nat :=
  match t with
  | [] => 0
  | ALookupEnv _ :: t' => S (resolutions t')
  | _ :: t' => resolutions t'
  end.

(** Number of file system accesses (stat or directory read). *)
Fixpoint scans (t : list Action) : nat :=
  match t with
  | [] => 0
  | ALstat _ :: t' | AReadDir _ :: t' => S (scans t')
  | _ :: t' => scans t'
  end.

(** Actions of a directory scan: stat, read, log. *)
Definition scan_action (a : Action) : Prop :=
  match a with
  | ALstat _ | AReadDir _ | ALog _ _ _ => True
  | _ => False
  end.

Definition dial_ok (W : World) (path : string) : bool :=
  match net_Dial W path with inl _ => true | inr _ => false end.

(** Connections a dial pass over [paths] yields. *)
Definition dial_conns (W : World) (paths : list string) : list Conn :=
  flat_map (fun p => match net_Dial W p with inl c => [c] | inr _ => [] end) paths.

(** What a dial pass over [paths] leaves on the trace. *)
Definition dial_trace (W : World) (paths : list string) : list Action :=
  flat_map (fun p =>
    match net_Dial W p with
    | inl c => [ADial p (inl c); ALog Debug "Machine event socket %q found" [LStr p]]
    | inr err => [ADial p (inr err);
                  ALog Warn "Failed to open event socket %q: %v" [LStr p; LErr err]]
    end) paths.

(** What writing [payload] to [socks] leaves on the trace. *)
Definition write_trace (W : World) (payload : string) (socks : list Conn)
  : list Action :=
  flat_map (fun c =>
    match conn_Write W c payload with
    | Some err => [AWrite c payload (Some err);
                   ALog Error "Unable to write machine event: %q" [LErr err]]
    | None => [AWrite c payload None]
    end) socks.

Definition close_trace (W : World) (socks : list Conn) : list Action :=
  map (fun c => AClose c (conn_Close W c)) socks.

(** *** The walk, read off the file system *)

(** [fn] keeps the entry. *)
Definition keeps (d : DirEntry) : bool :=
  negb (IsDir d) && N.eqb (Type_ d) ModeSocket
  && Regexp.MatchString re (Name d).

(** The first failure a walk below [path] meets, in walk order: a
    directory that cannot be read. *)
Fixpoint walk_failure (W : World) (path : string) (n : FsNode) : option error :=
  match n with
  | Node d dirs rderr =>
      if IsDir d then
        match rderr with
        | Some (op, errno) => Some (PathError op path errno)
        | None =>
            (fix first (ds : list FsNode) : option error :=
               match ds with
               | [] => None
               | d1 :: ds' =>
                   match walk_failure W (filepath_Join W path (Name (entry_of d1))) d1 with
                   | Some err => Some err
                   | None => first ds'
                   end
               end) dirs
        end
      else None
  end.

(** The paths of the entries [fn] keeps, in walk order, up to the
    first failure. *)
Fixpoint walk_found (W : World) (path : string) (n : FsNode) : list string :=
  match n with
  | Node d dirs rderr =>
      if IsDir d then
        match rderr with
        | Some _ => []
        | None =>
            (fix each (ds : list FsNode) : list string :=
               match ds with
               | [] => []
               | d1 :: ds' =>
                   let p1 := filepath_Join W path (Name (entry_of d1)) in
                   walk_found W p1 d1 ++
                   match walk_failure W p1 d1 with
                   | Some _ => []
                   | None => each ds'
                   end
               end) dirs
        end
      else if keeps d then [path] else []
  end.

(** The trace of the walk below [path]. *)
Fixpoint walk_trace (W : World) (path : string) (n : FsNode) : list Action :=
  match n with
  | Node d dirs rderr =>
      if IsDir d then
        AReadDir path ::
        match rderr with
        | Some _ => []
        | None =>
            (fix each (ds : list FsNode) : list Action :=
               match ds with
               | [] => []
               | d1 :: ds' =>
                   let p1 := filepath_Join W path (Name (entry_of d1)) in
                   walk_trace W p1 d1 ++
                   match walk_failure W p1 d1 with
                   | Some _ => []
                   | None => each ds'
                   end
               end) dirs
        end
      else if keeps d
           then [ALog Debug "Machine events will be published on: %q" [LStr path]]
           else []
  end.

(** Every entry below [path] with its path, in walk order. *)
Fixpoint entries (W : World) (path : string) (n : FsNode)
  : list (string * DirEntry) :=
  match n with
  | Node d dirs _ =>
      (path, d) ::
      if IsDir d then
        (fix each (ds : list FsNode) : list (string * DirEntry) :=
           match ds with
           | [] => []
           | d1 :: ds' =>
               entries W (filepath_Join W path (Name (entry_of d1))) d1 ++ each ds'
           end) dirs
      else []
  end.

(** The same three readings for [WalkDir] from the root. *)
Definition scan_failure (W : World) (root : string) : option error :=
  match os_Lstat W root with
  | inr errno => Some (PathError "lstat" root errno)
  | inl n => walk_failure W root n
  end.

Definition scan_found (W : World) (root : string) : list string :=
  match os_Lstat W root with
  | inr _ => []
  | inl n => walk_found W root n
  end.

Definition scan_trace (W : World) (root : string) : list Action :=
  ALstat root ::
  match os_Lstat W root with
  | inr _ => []
  | inl n => walk_trace W root n
  end.

(** What [resolveEventSock] returns and does in a given world (it
    neither reads nor writes the package-level variables). *)
Definition resolved (W : World) : list string * option error :=
  fst (resolveEventSock W initial).

Definition resolve_trace (W : World) : list Action :=
  trace (snd (resolveEventSock W initial)).

(** The paths the [Do] body of [newMachineEvent] ranges over. *)
Definition once_paths (st : State) : list string :=
  if openEventSock st then [] else sockPaths st.

(** The file system names no two entries of the scanned directory by
    the same path. *)
Definition distinct_paths (W : World) : Prop :=
  match util_GetRuntimeDir W with
  | inl xdg =>
      let root := filepath_Join W xdg "podman" in
      match os_Lstat W root with
      | inl n => NoDup (map fst (entries W root n))
      | inr _ => True
      end
  | inr _ => True
  end.

(** What one pre-run hook dials and opens. *)
Definition prehook_dials (W : World) (c : Call) : list string :=
  match c with PreRun _ => fst (resolved W) | _ => [] end.

Definition prehook_conns (W : World) (c : Call) : list Conn :=
  match c with PreRun _ => dial_conns W (fst (resolved W)) | _ => [] end.

Definition is_PreRun (c : Call) : bool :=
  match c with PreRun _ => true | _ => false end.

(* ================================================================== *)
(** ** Sample worlds                                                    *)
(* ================================================================== *)

Module Demo.

Definition join (dir name : string) : string := (dir ++ "/" ++ name)%string.

Definition socket (name : string) : FsNode :=
  Node {| Name := name; Mode := ModeSocket |} [] None.

Definition file (name : string) : FsNode :=
  Node {| Name := name; Mode := 0%N |} [] None.

Definition dir (name : string) (dirs : list FsNode) : FsNode :=
  Node {| Name := name; Mode := ModeDir |} dirs None.

(** [podman/] with two event sockets, a plain file of a matching
    name, and a machine directory holding another socket. *)
Definition podmanDir : FsNode :=
  dir "podman"
    [ socket "machine_events.1.sock";
      socket "machine_events.2.sock";
      file "machine_events.3.sock";
      dir "machine" [ socket "qemu.sock" ] ].

(** A directory that cannot be read. *)
Definition lockedDir : FsNode :=
  Node {| Name := "podman"; Mode := ModeDir |} [] (Some ("open", EACCES)).

Definition dial (path : string) : Conn + error :=
  if String.eqb path "/run/user/1000/podman/machine_events.2.sock"
  then inr (errorString "connect: connection refused")
  else inl (UnixConn 3 path).

Definition marshal (e : Event) : string + error :=
  inl (Type' e ++ ":" ++ Status e)%string.

Definition base (env : option string) (lstat : FsNode + Errno) : World :=
  {| os_Args := ["podman"; "machine"; "start"];
     os_LookupEnv := fun name =>
       if String.eqb name "PODMAN_MACHINE_EVENTS_SOCK" then env else None;
     util_GetRuntimeDir := inl "/run/user/1000";
     filepath_Join := join;
     os_Lstat := fun _ => lstat;
     net_Dial := dial;
     conn_Write := fun c _ =>
       match c with
       | UnixConn _ "/tmp/broken.sock" => Some (errorString "write: broken pipe")
       | _ => None
       end;
     conn_Close := fun _ => Some (errorString "close: bad file descriptor");
     time_Now := fun n => (1000 + Z.of_nat n)%Z;
     json_Marshal := marshal |}.

(** The override variable names a socket. *)
Definition override : World := base (Some "/tmp/test.sock") (inl podmanDir).

(** No override; the runtime directory has [podman/] as above. *)
Definition scanning : World := base None (inl podmanDir).

(** No override; [podman/] does not exist. *)
Definition absent : World := base None (inr ENOENT).

(** No override; [podman/] cannot be read. *)
Definition locked : World := base None (inl lockedDir).

(** No override and no runtime directory. *)
Definition homeless : World :=
  {| os_Args := os_Args scanning;
     os_LookupEnv := os_LookupEnv scanning;
     util_GetRuntimeDir := inr (errorString "XDG_RUNTIME_DIR not set");
     filepath_Join := join;
     os_Lstat := os_Lstat scanning;
     net_Dial := dial;
     conn_Write := conn_Write scanning;
     conn_Close := conn_Close scanning;
     time_Now := time_Now scanning;
     json_Marshal := marshal |}.

Definition event : Event :=
  {| Type' := "container"; Status := "died"; Time := 0%Z;
     Context := [("Name", "podman-machine-default")] |}.

End Demo.

(* ================================================================== *)
(** ** The specification's wording, for comparison                      *)
(* ================================================================== *)

Module Spec.

(** [s] ends with [suffix]. *)
Definition has_suffix (suffix s : string) : bool :=
  String.eqb
    (substring (String.length s - String.length suffix)
       (String.length suffix) s)
    suffix
  && Nat.leb (String.length suffix) (String.length s).

(** The inclusion rule as worded: not a directory, type socket, name
    with prefix [machine_events] and suffix [.sock]. *)
Definition includes (d : DirEntry) : bool :=
  negb (IsDir d) && N.eqb (Type_ d) ModeSocket
  && String.prefix "machine_events" (Name d)
  && has_suffix ".sock" (Name d).

(** The walk rule as worded: an entry is included exactly under
    [includes]. *)
Definition walk_rule : Prop :=
  forall path d,
    snd (fst (fn path (Visit d) [] initial)) = [path] <->
    includes d = true.

(** The pre-hook and the lazy pool as worded: the pre-hook records
    the resolved endpoints without dialing any of them, and the first
    publish dials every one of them. *)
Definition lazy_dial (W : World) : Prop :=
  forall cmd status event,
    let st1 := snd (initMachineEvents W cmd initial) in
    let st2 := snd (newMachineEvent W status event st1) in
    dials (trace st1) = [] /\
    sockPaths st1 = fst (resolved W) /\
    dials (trace st2) = fst (resolved W).

(** Walk errors as worded: with the target subdirectory present, a
    failure met during the walk is returned as the error. *)
Definition walk_errors_returned (W : World) : Prop :=
  forall xdg n err,
    os_LookupEnv W "PODMAN_MACHINE_EVENTS_SOCK" = None ->
    util_GetRuntimeDir W = inl xdg ->
    os_Lstat W (filepath_Join W xdg "podman") = inl n ->
    walk_failure W (filepath_Join W xdg "podman") n = Some err ->
    snd (fst (resolveEventSock W initial)) = Some err.

End Spec.

(** The write attempts owed to the events [es], in order: for each
    event that serialises, its payload once per socket. *)
Definition deliveries (W : World) (socks : list Conn) (es : list Event)
  : list (Conn * string) :=
  flat_map (fun e =>
    match json_Marshal W e with
    | inl payload => map (fun c => (c, payload)) socks
    | inr _ => []
    end) es.

(* ================================================================== *)
(** ** Shell completion of machine names                                *)
(* ================================================================== *)

Module Completion.

(** [cobra.ShellCompDirective]: the two values the package names. *)
Inductive ShellCompDirective : Type :=
| ShellCompDirectiveDefault
| ShellCompDirectiveNoFileComp.

(** [machine.ListResponse], as far as the package reads it. *)
Record ListResponse : Type := { Name : string }.

(** What a completion function hands to cobra: the suggestions ([None]
    is Go's nil slice), the directive, and the errors whose text it
    printed with [cobra.CompErrorln]. *)
Record Reply : Type := {
  suggestions : option (list string);
  directive : ShellCompDirective;
  printed : list error
}.

Section Provider.

(** What [getSystemDefaultProvider().List(machine.ListOptions{})]
    returns. *)
Variable provider_List : list ListResponse + error.

(** The loop of [getMachines] over the machines, [suggestions] being
    appended to. *)
Fixpoint range (toComplete : string) (machines : list ListResponse)
    (suggestions : list string) : list string :=
  match machines with
  | [] => suggestions
  | m :: rest =>
      range toComplete rest
        (if String.prefix toComplete (Name m)
         then suggestions ++ [Name m]
         else suggestions)
  end.

Definition getMachines (toComplete : string) : Reply :=
  match provider_List with
  | inr err =>
      {| suggestions := None; directive := ShellCompDirectiveNoFileComp;
         printed := [err] |}
  | inl machines =>
      {| suggestions := Some (range toComplete machines []);
         directive := ShellCompDirectiveNoFileComp;
         printed := [] |}
  end.

(** [autocompleteMachineSSH]; the command argument is not used. *)
Definition autocompleteMachineSSH (args : list string) (toComplete : string)
  : Reply :=
  if Nat.eqb (List.length args) 0 then getMachines toComplete
  else {| suggestions := None; directive := ShellCompDirectiveDefault;
          printed := [] |}.

(** [autocompleteMachine]; the command argument is not used. *)
Definition autocompleteMachine (args : list string) (toComplete : string)
  : Reply :=
  if Nat.eqb (List.length args) 0 then getMachines toComplete
  else {| suggestions := None; directive := ShellCompDirectiveNoFileComp;
          printed := [] |}.

End Provider.

End Completion.

(* ================================================================== *)
(** ** More sample worlds                                               *)
(* ================================================================== *)

Module Samples.

(** [podman/] holds an event socket and, after it, a directory that has
    vanished by the time it is read. *)
Definition vanishing : FsNode :=
  Demo.dir "podman"
    [ Demo.socket "machine_events.1.sock";
      Node {| Go.Name := "cache"; Mode := ModeDir |} [] (Some ("open", ENOENT)) ].

Definition racing : World := Demo.base None (inl vanishing).

(** Three machines. *)
Definition machines : list Completion.ListResponse :=
  [ {| Completion.Name := "podman-machine-default" |};
    {| Completion.Name := "dev" |};
    {| Completion.Name := "podman-test" |} ].

End Samples.

(* ================================================================== *)
(** * Properties                                                        *)
(* ================================================================== *)

(** ** The matcher accepts what the expression denotes *)

Module RegexpFacts.
Import Regexp.

Lemma append_nil_r (s : string) : (s ++ "")%string = s.
Proof. induction s; simpl; congruence. Qed.

Lemma append_assoc (a b c : string) :
  ((a ++ b) ++ c)%string = (a ++ (b ++ c))%string.
Proof. induction a; simpl; congruence. Qed.

Lemma append_eq_nil (a b : string) :
  (a ++ b)%string = "" -> a = "" /\ b = "".
Proof. destruct a; simpl; intros H; [auto | discriminate]. Qed.

Lemma nullable_matches (r : regex) : nullable r = true <-> matches r "".
Proof.
  split.
  - induction r; simpl; intros H; try discriminate.
    + constructor.
    + apply andb_true_iff in H as [H1 H2].
      change (matches (Cat r1 r2) ("" ++ "")). constructor; auto.
    + apply orb_true_iff in H as [H | H];
        [apply MAltL | apply MAltR]; auto.
    + constructor.
  - intros H. remember "" as e eqn:He.
    induction H; simpl; try discriminate; auto.
    + apply append_eq_nil in He as [-> ->].
      rewrite IHmatches1, IHmatches2; auto.
    + rewrite IHmatches; auto.
    + rewrite IHmatches; auto using orb_true_r.
Qed.

Lemma matches_cat_inv (r s : regex) (w : string) :
  matches (Cat r s) w ->
  exists u v, w = (u ++ v)%string /\ matches r u /\ matches s v.
Proof. inversion 1; subst; eauto. Qed.

Lemma matches_lit_inv (c : ascii) (w : string) :
  matches (Lit c) w -> w = String c "".
Proof. inversion 1; auto. Qed.

Lemma deriv_sound (c : ascii) (r : regex) :
  forall s, matches (deriv c r) s -> matches r (String c s).
Proof.
  induction r; simpl; intros s H.
  - inversion H.
  - inversion H.
  - destruct (Ascii.eqb c c0) eqn:E; [| inversion H].
    apply Ascii.eqb_eq in E; subst. inversion H; subst. constructor.
  - destruct (Ascii.eqb c newline) eqn:E; [inversion H |].
    inversion H; subst. constructor.
    intros ->. rewrite Ascii.eqb_refl in E. discriminate.
  - inversion H; subst. constructor.
  - assert (Hcat : forall s, matches (Cat (deriv c r1) r2) s ->
                             matches (Cat r1 r2) (String c s)).
    { intros s0 H0. inversion H0; subst.
      change (matches (Cat r1 r2) (String c u ++ v)). constructor; auto. }
    destruct (nullable r1) eqn:N; auto.
    inversion H; subst; auto.
    change (matches (Cat r1 r2) ("" ++ String c s)).
    constructor; auto. apply nullable_matches; auto.
  - inversion H; subst; [apply MAltL | apply MAltR]; auto.
  - inversion H; subst.
    change (matches (Star r) (String c u ++ v)). constructor; auto.
Qed.

Lemma deriv_complete (r : regex) (w : string) :
  matches r w -> forall c s, w = String c s -> matches (deriv c r) s.
Proof.
  induction 1; intros c0 s0 E; simpl.
  - discriminate.
  - inversion E; subst. rewrite Ascii.eqb_refl. constructor.
  - inversion E; subst.
    destruct (Ascii.eqb c0 newline) eqn:E'; [| constructor].
    apply Ascii.eqb_eq in E'. contradiction.
  - inversion E; subst. constructor.
  - destruct u as [| a u']; simpl in E.
    + apply nullable_matches in H. rewrite H. apply MAltR; auto.
    + inversion E; subst.
      assert (matches (Cat (deriv c0 r) s) (u' ++ v))
        by (constructor; auto).
      destruct (nullable r); [apply MAltL |]; auto.
  - apply MAltL; auto.
  - apply MAltR; auto.
  - discriminate.
  - destruct u as [| a u']; simpl in E.
    + apply (IHmatches2 c0 s0 E).
    + inversion E; subst. constructor; auto.
Qed.

Lemma full_match_iff (s : string) :
  forall r, full_match r s = true <-> matches r s.
Proof.
  induction s as [| c s IH]; intros r; simpl.
  - apply nullable_matches.
  - rewrite IH. split.
    + apply deriv_sound.
    + intros H. eapply deriv_complete; eauto.
Qed.

Lemma matches_literal (l s : string) : matches (literal l) s <-> s = l.
Proof.
  revert s. induction l as [| c l IH]; intros s; simpl.
  - split; [inversion 1; auto | intros ->; constructor].
  - split.
    + intros H. apply matches_cat_inv in H as (u & v & -> & Hu & Hv).
      apply matches_lit_inv in Hu. apply IH in Hv. subst. reflexivity.
    + intros ->. change (matches (Cat (Lit c) (literal l)) (String c "" ++ l)).
      constructor; [constructor | apply IH; auto].
Qed.

Lemma matches_star_any (s : string) : matches (Star AnyChar) s.
Proof.
  induction s as [| c s IH]; [constructor |].
  change (matches (Star AnyChar) (String c "" ++ s)).
  constructor; [constructor | auto].
Qed.

Lemma no_newline_app (a b : string) :
  no_newline (a ++ b) = no_newline a && no_newline b.
Proof.
  induction a; simpl; auto. rewrite IHa. apply andb_assoc.
Qed.

Lemma matches_star_dot (s : string) :
  matches (Star Dot) s <-> no_newline s = true.
Proof.
  split.
  - intros H. remember (Star Dot) as r eqn:Hr.
    induction H; try discriminate; auto.
    inversion Hr; subst. rewrite no_newline_app, IHmatches2; auto.
    inversion H; subst. simpl.
    destruct (Ascii.eqb c newline) eqn:E; auto.
    apply Ascii.eqb_eq in E. contradiction.
  - induction s as [| c s IH]; simpl; intros H; [constructor |].
    apply andb_true_iff in H as [H1 H2].
    change (matches (Star Dot) (String c "" ++ s)).
    constructor; auto. constructor. intros ->.
    rewrite Ascii.eqb_refl in H1. discriminate.
Qed.

(** [MatchString] searches: some substring matches. *)
Lemma MatchString_iff (r : regex) (s : string) :
  MatchString r s = true <->
  exists a m b, s = (a ++ m ++ b)%string /\ matches r m.
Proof.
  unfold MatchString. rewrite full_match_iff. split.
  - intros H. apply matches_cat_inv in H as (a & v & -> & _ & Hv).
    apply matches_cat_inv in Hv as (m & b & -> & Hm & _). eauto.
  - intros (a & m & b & -> & Hm).
    constructor; [apply matches_star_any |].
    constructor; [auto | apply matches_star_any].
Qed.

End RegexpFacts.

(** What the pattern of [resolveEventSock] accepts: a name that holds
    [machine_events] and, further on with no line feed between,
    [.sock]. *)
Lemma re_MatchString (name : string) :
  Regexp.MatchString re name = true <->
  exists a mid b,
    name = (a ++ "machine_events" ++ mid ++ ".sock" ++ b)%string /\
    Regexp.no_newline mid = true.
Proof.
  rewrite RegexpFacts.MatchString_iff. unfold re. split.
  - intros (a & m & b & -> & Hm).
    apply RegexpFacts.matches_cat_inv in Hm as (u & v & -> & Hu & Hv).
    apply RegexpFacts.matches_cat_inv in Hv as (mid & w & -> & Hmid & Hw).
    apply RegexpFacts.matches_literal in Hu, Hw.
    apply RegexpFacts.matches_star_dot in Hmid. subst.
    exists a, mid, b. split; auto.
    rewrite !RegexpFacts.append_assoc. reflexivity.
  - intros (a & mid & b & -> & Hm).
    exists a, ("machine_events" ++ mid ++ ".sock")%string, b. split.
    + rewrite !RegexpFacts.append_assoc. reflexivity.
    + constructor; [apply RegexpFacts.matches_literal; reflexivity |].
      constructor; [apply RegexpFacts.matches_star_dot; auto |].
      apply RegexpFacts.matches_literal; reflexivity.
Qed.

(** ** Monad and loops *)

Lemma add_trace_nil (st : State) : add_trace st [] = st.
Proof. destruct st; unfold add_trace; simpl. rewrite app_nil_r. reflexivity. Qed.

Lemma add_trace_app (st : State) (a b : list Action) :
  add_trace (add_trace st a) b = add_trace st (a ++ b).
Proof. unfold add_trace; simpl. rewrite app_assoc. reflexivity. Qed.

Lemma add_trace_cons (st : State) (a : Action) (l : list Action) :
  add_trace st (a :: l) = add_trace (add_trace st [a]) l.
Proof. rewrite add_trace_app. reflexivity. Qed.

Lemma emit_spec (a : Action) (st : State) : emit a st = (tt, add_trace st [a]).
Proof. reflexivity. Qed.

(** One visit by [fn]. *)
Lemma fn_Visit (path : string) (d : DirEntry) (acc : list string) (st : State) :
  fn path (Visit d) acc st =
  if keeps d
  then ((None, acc ++ [path]),
        add_trace st [ALog Debug "Machine events will be published on: %q" [LStr path]])
  else ((None, acc), st).
Proof.
  unfold fn, keeps.
  destruct (IsDir d); simpl; auto.
  destruct (N.eqb (Type_ d) ModeSocket); simpl; auto.
  destruct (Regexp.MatchString re (Name d)); simpl; auto.
Qed.

Lemma keeps_not_dir (d : DirEntry) : IsDir d = true -> keeps d = false.
Proof. unfold keeps. intros ->. reflexivity. Qed.

(** A failure of the walk is a [PathError], never the [SkipDir] sentinel. *)
Lemma walk_failure_not_SkipDir (W : World) (n : FsNode) :
  forall path err, walk_failure W path n = Some err -> is_SkipDir err = false.
Proof.
  induction n as [d dirs rderr IH] using FsNode_ind; intros path err.
  cbn [walk_failure]. destruct (IsDir d); [| discriminate].
  destruct rderr as [[op errno] |].
  - intros H; inversion H; reflexivity.
  - induction IH as [| d1 ds Hd1 _ IHds]; [discriminate |].
    destruct (walk_failure W (filepath_Join W path (Name (entry_of d1))) d1)
      as [e |] eqn:Hf; auto.
    intros H; inversion H; subst. eapply Hd1; eauto.
Qed.

Lemma walkDir_fn (W : World) (n : FsNode) :
  forall path acc st,
    walkDir W fn path n acc st =
    ((walk_failure W path n, acc ++ walk_found W path n),
     add_trace st (walk_trace W path n)).
Proof.
  induction n as [d dirs rderr IH] using FsNode_ind; intros path acc st.
  cbn [walkDir walk_failure walk_found walk_trace].
  unfold bind at 1. rewrite fn_Visit.
  destruct (IsDir d) eqn:Hdir.
  - rewrite keeps_not_dir by assumption. cbn [negb].
    unfold bind at 1. rewrite emit_spec.
    destruct rderr as [[op errno] |].
    + unfold bind, fn, ret. rewrite app_nil_r. reflexivity.
    + unfold bind at 1, ret at 1.
      match goal with
      | |- _ = (_, add_trace st (?a :: ?l)) => rewrite (add_trace_cons st a l)
      end.
      generalize (add_trace st [AReadDir path]). clear st.
      revert acc.
      induction IH as [| d1 ds Hd1 _ IHds]; intros acc st.
      * unfold ret. rewrite app_nil_r, add_trace_nil. reflexivity.
      * unfold bind at 1. rewrite Hd1.
        destruct (walk_failure W (filepath_Join W path (Name (entry_of d1))) d1)
          as [err |] eqn:Hf.
        -- rewrite (walk_failure_not_SkipDir _ _ _ Hf). unfold ret. rewrite !app_nil_r. reflexivity.
        -- rewrite IHds. rewrite add_trace_app, app_assoc. reflexivity.
  - cbn [negb]. destruct (keeps d); unfold ret; [reflexivity |].
    rewrite app_nil_r, add_trace_nil. reflexivity.
Qed.

Lemma WalkDir_fn (W : World) (root : string) (st : State) :
  WalkDir W root fn [] st =
  ((scan_failure W root, scan_found W root), add_trace st (scan_trace W root)).
Proof.
  unfold WalkDir, scan_failure, scan_found, scan_trace.
  unfold bind at 1. rewrite emit_spec. unfold bind.
  destruct (os_Lstat W root) as [n | errno].
  - rewrite walkDir_fn, add_trace_app. cbn [app].
    destruct (walk_failure W root n) as [err |] eqn:Hf; [| reflexivity].
    rewrite (walk_failure_not_SkipDir _ _ _ Hf). reflexivity.
  - reflexivity.
Qed.

(** [resolveEventSock], case by case. *)
Lemma resolveEventSock_cases (W : World) (st : State) :
  resolveEventSock W st =
  match os_LookupEnv W "PODMAN_MACHINE_EVENTS_SOCK" with
  | Some sock =>
      (([sock], None),
       add_trace st [ALookupEnv "PODMAN_MACHINE_EVENTS_SOCK"])
  | None =>
      match util_GetRuntimeDir W with
      | inr err =>
          (([], None),
           add_trace st
             [ALookupEnv "PODMAN_MACHINE_EVENTS_SOCK"; AGetRuntimeDir;
              ALog Warn
                "Failed to get runtime dir, machine events will not be published: %s"
                [LErr err]])
      | inl xdg =>
          let root := filepath_Join W xdg "podman" in
          (match scan_failure W root with
           | Some err => ([], if Is_ErrNotExist err then None else Some err)
           | None => (scan_found W root, None)
           end,
           add_trace st
             (ALookupEnv "PODMAN_MACHINE_EVENTS_SOCK" :: AGetRuntimeDir
              :: scan_trace W root))
      end
  end.
Proof.
  unfold resolveEventSock. unfold bind at 1. rewrite emit_spec.
  destruct (os_LookupEnv W "PODMAN_MACHINE_EVENTS_SOCK") as [sock |];
    [reflexivity |].
  unfold bind at 1. rewrite emit_spec, add_trace_app.
  destruct (util_GetRuntimeDir W) as [xdg | err].
  - unfold bind. rewrite WalkDir_fn, add_trace_app.
    destruct (scan_failure W (filepath_Join W xdg "podman")) as [err |];
      [destruct (Is_ErrNotExist err) |]; reflexivity.
  - unfold bind, logrus. rewrite emit_spec, add_trace_app. reflexivity.
Qed.

(** Resolution depends on the world only. *)
Lemma resolveEventSock_spec (W : World) (st : State) :
  resolveEventSock W st = (resolved W, add_trace st (resolve_trace W)).
Proof.
  unfold resolved, resolve_trace.
  rewrite (resolveEventSock_cases W initial), (resolveEventSock_cases W st).
  destruct (os_LookupEnv W "PODMAN_MACHINE_EVENTS_SOCK"); [reflexivity |].
  destruct (util_GetRuntimeDir W); reflexivity.
Qed.

Lemma dialLoop_spec (W : World) (paths : list string) :
  forall st,
    dialLoop W paths st =
    (tt, {| sockPaths := sockPaths st; openEventSock := openEventSock st;
            sockets := sockets st ++ dial_conns W paths;
            trace := trace st ++ dial_trace W paths |}).
Proof.
  induction paths as [| p paths IH]; intros st.
  - simpl. unfold ret. rewrite !app_nil_r. destruct st; reflexivity.
  - cbn [dialLoop dial_conns dial_trace flat_map].
    unfold bind at 1. rewrite emit_spec. unfold bind at 1.
    destruct (net_Dial W p) as [conn | err].
    + unfold bind at 1, logrus. rewrite emit_spec.
      unfold append_socket. rewrite IH. cbn.
      rewrite <- !app_assoc. reflexivity.
    + unfold logrus. rewrite emit_spec, IH. cbn.
      rewrite <- !app_assoc. reflexivity.
Qed.

Lemma writeLoop_spec (W : World) (payload : string) (socks : list Conn) :
  forall st,
    writeLoop W payload socks st = (tt, add_trace st (write_trace W payload socks)).
Proof.
  induction socks as [| c socks IH]; intros st.
  - simpl. unfold ret. rewrite add_trace_nil. reflexivity.
  - cbn [writeLoop write_trace flat_map].
    unfold bind at 1. rewrite emit_spec. unfold bind at 1.
    destruct (conn_Write W c payload) as [err |].
    + unfold logrus. rewrite emit_spec, IH, !add_trace_app. reflexivity.
    + unfold ret. rewrite IH, !add_trace_app. reflexivity.
Qed.

Lemma closeLoop_spec (W : World) (socks : list Conn) :
  forall st, closeLoop W socks st = (tt, add_trace st (close_trace W socks)).
Proof.
  induction socks as [| c socks IH]; intros st.
  - simpl. unfold ret. rewrite add_trace_nil. reflexivity.
  - cbn [closeLoop close_trace map].
    unfold bind. rewrite emit_spec, IH, add_trace_app. reflexivity.
Qed.

(** The pre-run hook, in full. *)
Lemma initMachineEvents_spec (W : World) (cmd : string) (st : State) :
  initMachineEvents W cmd st =
  let called :=
    ALog Debug "Called machine %s.PersistentPreRunE(%s)"
      [LStr cmd; LStr (String.concat " " (os_Args W))] in
  match resolved W with
  | (_, Some err) => (Some err, add_trace st (called :: resolve_trace W))
  | (paths, None) =>
      (None,
       {| sockPaths := sockPaths st; openEventSock := openEventSock st;
          sockets := sockets st ++ dial_conns W paths;
          trace := trace st ++ called :: resolve_trace W ++ dial_trace W paths |})
  end.
Proof.
  unfold initMachineEvents. unfold bind at 1, logrus. rewrite emit_spec.
  unfold bind at 1. rewrite resolveEventSock_spec, add_trace_app.
  destruct (resolved W) as [paths [err |]]; [reflexivity |].
  destruct paths as [| p paths].
  - cbn. rewrite !app_nil_r. reflexivity.
  - cbn [length Nat.eqb]. unfold bind. rewrite dialLoop_spec. cbn.
    rewrite <- !app_assoc. reflexivity.
Qed.

(** The post-run hook, in full. *)
Lemma closeMachineEvents_spec (W : World) (cmd : string) (st : State) :
  closeMachineEvents W cmd st =
  (None,
   add_trace st
     (ALog Debug "Called machine %s.PersistentPostRunE(%s)"
        [LStr cmd; LStr (String.concat " " (os_Args W))]
      :: close_trace W (sockets st))).
Proof.
  unfold closeMachineEvents. unfold bind at 1, logrus. rewrite emit_spec.
  unfold bind, get_sockets. rewrite closeLoop_spec, add_trace_app.
  reflexivity.
Qed.

(** Publish, in full. *)
Lemma newMachineEvent_spec (W : World) (status : string) (event : Event)
    (st : State) :
  newMachineEvent W status event st =
  let opened := dial_trace W (once_paths st) in
  let t := time_Now W (length (trace st ++ opened)) in
  let e := stamp status t event in
  let socks := sockets st ++ dial_conns W (once_paths st) in
  (tt,
   {| sockPaths := sockPaths st; openEventSock := true; sockets := socks;
      trace := trace st ++ opened ++ ANow t :: AMarshal e ::
               match json_Marshal W e with
               | inl payload => write_trace W payload socks
               | inr err =>
                   [ALog Error "Unable to format machine event: %q" [LErr err]]
               end |}).
Proof.
  unfold newMachineEvent. unfold bind at 1.
  assert (Honce :
    Once_Do (sockPaths <- get_sockPaths ;;
             if Nat.eqb (length sockPaths) 0 then ret tt
             else dialLoop W sockPaths)%machine st =
    (tt, {| sockPaths := sockPaths st; openEventSock := true;
            sockets := sockets st ++ dial_conns W (once_paths st);
            trace := trace st ++ dial_trace W (once_paths st) |})).
  { unfold Once_Do, once_paths.
    destruct st as [sp flag socks tr]; cbn [openEventSock sockPaths sockets trace].
    destruct flag.
    - cbn. rewrite !app_nil_r. reflexivity.
    - unfold bind, get_sockPaths. cbn [sockPaths].
      destruct sp as [| p sp].
      + cbn. rewrite !app_nil_r. reflexivity.
      + cbn [length Nat.eqb]. rewrite dialLoop_spec. reflexivity. }
  rewrite Honce. clear Honce.
  unfold bind at 1, now. cbn [snd trace]. rewrite emit_spec. cbn [snd].
  unfold bind at 1. rewrite emit_spec.
  cbv zeta.
  destruct (json_Marshal W _) as [payload | err].
  - unfold bind, get_sockets. rewrite writeLoop_spec.
    unfold add_trace; cbn. rewrite <- !app_assoc. reflexivity.
  - unfold logrus. rewrite emit_spec.
    unfold add_trace; cbn. rewrite <- !app_assoc. reflexivity.
Qed.

(** ** Reading traces *)

Lemma dials_app (a b : list Action) : dials (a ++ b) = dials a ++ dials b.
Proof. induction a as [| [] a IH]; simpl; congruence. Qed.

Lemma writes_app (a b : list Action) : writes (a ++ b) = writes a ++ writes b.
Proof. induction a as [| [] a IH]; simpl; congruence. Qed.

Lemma closes_app (a b : list Action) : closes (a ++ b) = closes a ++ closes b.
Proof. induction a as [| [] a IH]; simpl; congruence. Qed.

Lemma marshalled_app (a b : list Action) :
  marshalled (a ++ b) = marshalled a ++ marshalled b.
Proof. induction a as [| [] a IH]; simpl; congruence. Qed.

Lemma resolutions_app (a b : list Action) :
  resolutions (a ++ b) = resolutions a + resolutions b.
Proof. induction a as [| [] a IH]; simpl; congruence. Qed.

Lemma scans_app (a b : list Action) : scans (a ++ b) = scans a + scans b.
Proof. induction a as [| [] a IH]; simpl; congruence. Qed.

Lemma dials_dial_trace (W : World) (paths : list string) :
  dials (dial_trace W paths) = paths.
Proof.
  induction paths as [| p paths IH]; simpl; auto.
  destruct (net_Dial W p); simpl; congruence.
Qed.

Lemma writes_dial_trace (W : World) (paths : list string) :
  writes (dial_trace W paths) = [].
Proof.
  induction paths as [| p paths IH]; simpl; auto.
  destruct (net_Dial W p); simpl; congruence.
Qed.

Lemma resolutions_dial_trace (W : World) (paths : list string) :
  resolutions (dial_trace W paths) = 0.
Proof.
  induction paths as [| p paths IH]; simpl; auto.
  destruct (net_Dial W p); simpl; congruence.
Qed.

Lemma dials_write_trace (W : World) (payload : string) (socks : list Conn) :
  dials (write_trace W payload socks) = [].
Proof.
  induction socks as [| c socks IH]; simpl; auto.
  destruct (conn_Write W c payload); simpl; congruence.
Qed.

Lemma resolutions_write_trace (W : World) (payload : string) (socks : list Conn) :
  resolutions (write_trace W payload socks) = 0.
Proof.
  induction socks as [| c socks IH]; simpl; auto.
  destruct (conn_Write W c payload); simpl; congruence.
Qed.

(** One write attempt per connection, in order, whatever each write
    returns. *)
Lemma writes_write_trace (W : World) (payload : string) (socks : list Conn) :
  writes (write_trace W payload socks) = map (fun c => (c, payload)) socks.
Proof.
  induction socks as [| c socks IH]; simpl; auto.
  destruct (conn_Write W c payload); simpl; congruence.
Qed.

Lemma dials_close_trace (W : World) (socks : list Conn) :
  dials (close_trace W socks) = [].
Proof. induction socks; simpl; auto. Qed.

Lemma resolutions_close_trace (W : World) (socks : list Conn) :
  resolutions (close_trace W socks) = 0.
Proof. induction socks; simpl; auto. Qed.

Lemma closes_close_trace (W : World) (socks : list Conn) :
  closes (close_trace W socks) = socks.
Proof. induction socks; simpl; congruence. Qed.

(** The walk only reads directories and logs. *)
Lemma walk_trace_scan (W : World) (n : FsNode) :
  forall path, Forall scan_action (walk_trace W path n).
Proof.
  induction n as [d dirs rderr IH] using FsNode_ind; intros path.
  cbn [walk_trace]. destruct (IsDir d).
  - constructor; [exact I |].
    destruct rderr; [constructor |].
    induction IH as [| d1 ds Hd1 _ IHds]; [constructor |].
    apply Forall_app. split; [apply Hd1 |].
    destruct (walk_failure W _ d1); [constructor | exact IHds].
  - destruct (keeps d); repeat constructor.
Qed.

Lemma scan_trace_scan (W : World) (root : string) :
  Forall scan_action (scan_trace W root).
Proof.
  unfold scan_trace. constructor; [exact I |].
  destruct (os_Lstat W root); [apply walk_trace_scan | constructor].
Qed.

Lemma scan_action_quiet (l : list Action) :
  Forall scan_action l ->
  dials l = [] /\ writes l = [] /\ closes l = [] /\ marshalled l = [] /\
  resolutions l = 0.
Proof.
  induction 1 as [| a l Ha _ IH]; simpl; auto.
  destruct a; simpl in Ha; try contradiction; auto.
Qed.

(** Resolution dials nothing and looks the override up exactly once. *)
Lemma resolve_trace_quiet (W : World) :
  dials (resolve_trace W) = [] /\ resolutions (resolve_trace W) = 1.
Proof.
  unfold resolve_trace. rewrite resolveEventSock_cases.
  destruct (os_LookupEnv W "PODMAN_MACHINE_EVENTS_SOCK"); [cbn; auto |].
  destruct (util_GetRuntimeDir W) as [xdg | err]; [| cbn; auto].
  cbn [snd trace add_trace initial app]. cbn [dials resolutions].
  destruct (scan_action_quiet (scan_trace_scan W (filepath_Join W xdg "podman")))
    as (Hd & _ & _ & _ & Hr).
  rewrite Hd, Hr. auto.
Qed.

Example demo_scan_resolved :
  resolved Demo.scanning =
  (["/run/user/1000/podman/machine_events.1.sock";
    "/run/user/1000/podman/machine_events.2.sock"], None).
Proof. reflexivity. Qed.

Example demo_scan_sockets :
  sockets (snd (initMachineEvents Demo.scanning "start" initial)) =
  [UnixConn 3 "/run/user/1000/podman/machine_events.1.sock"].
Proof. reflexivity. Qed.

Example demo_locked : resolved Demo.locked =
  ([], Some (PathError "open" "/run/user/1000/podman" EACCES)).
Proof. reflexivity. Qed.

Example demo_absent : resolved Demo.absent = ([], None).
Proof. reflexivity. Qed.

Example demo_publish :
  writes (trace (run Demo.override [PreRun "start"; Publish "running" Demo.event] initial))
  = [(UnixConn 3 "/tmp/test.sock", "machine:running")].
Proof. reflexivity. Qed.

(** ** Process runs *)

(** When resolution fails it returns no path. *)
Lemma resolved_error_nil (W : World) (err : error) :
  snd (resolved W) = Some err -> fst (resolved W) = [].
Proof.
  unfold resolved. rewrite resolveEventSock_cases.
  destruct (os_LookupEnv W "PODMAN_MACHINE_EVENTS_SOCK"); [discriminate |].
  destruct (util_GetRuntimeDir W) as [xdg |]; [| discriminate].
  cbn. destruct (scan_failure W (filepath_Join W xdg "podman")); cbn;
    [auto | discriminate].
Qed.

(** What one call does to the package-level variables and which dials and
    resolutions it adds, as long as [sockPaths] is empty. *)
Lemma call_effect (W : World) (c : Call) (st : State) :
  sockPaths st = [] ->
  let st' := call W c st in
  sockPaths st' = [] /\
  sockets st' = sockets st ++ prehook_conns W c /\
  dials (trace st') = dials (trace st) ++ prehook_dials W c /\
  resolutions (trace st') =
    resolutions (trace st) + (if is_PreRun c then 1 else 0).
Proof.
  intros Hsp. destruct c as [cmd | status event | cmd]; cbn [call].
  - rewrite initMachineEvents_spec. cbv zeta.
    destruct (resolve_trace_quiet W) as [Hd Hr].
    destruct (resolved W) as [paths [err |]] eqn:Hres.
    + pose proof (@resolved_error_nil W err) as Hn.
      rewrite Hres in Hn. specialize (Hn eq_refl). cbn in Hn. subst paths.
      cbn [snd add_trace sockPaths sockets trace prehook_conns prehook_dials
           is_PreRun fst dial_conns flat_map].
      rewrite Hres. cbn [fst dial_conns flat_map].
      rewrite !app_nil_r, dials_app, resolutions_app. cbn [dials resolutions].
      rewrite Hd, Hr, app_nil_r. auto.
    + cbn [snd sockPaths sockets trace prehook_conns prehook_dials is_PreRun].
      rewrite Hres. cbn [fst].
      rewrite dials_app, resolutions_app. cbn [dials resolutions].
      rewrite dials_app, resolutions_app, Hd, Hr, dials_dial_trace,
        resolutions_dial_trace.
      repeat split; auto; lia.
  - rewrite newMachineEvent_spec. cbv zeta.
    assert (Hop : once_paths st = [])
      by (unfold once_paths; rewrite Hsp; destruct (openEventSock st); auto).
    rewrite Hop.
    cbn [snd sockPaths sockets trace prehook_conns prehook_dials is_PreRun
         dial_conns dial_trace flat_map app].
    rewrite !app_nil_r, dials_app, resolutions_app. cbn [dials resolutions].
    destruct (json_Marshal W _).
    + rewrite dials_write_trace, resolutions_write_trace, app_nil_r. auto.
    + cbn. rewrite app_nil_r. auto.
  - rewrite closeMachineEvents_spec.
    cbn [snd add_trace sockPaths sockets trace prehook_conns prehook_dials
         is_PreRun].
    rewrite !app_nil_r, dials_app, resolutions_app. cbn [dials resolutions].
    rewrite dials_close_trace, resolutions_close_trace, app_nil_r. auto.
Qed.

Lemma run_app (W : World) (cs1 cs2 : list Call) (st : State) :
  run W (cs1 ++ cs2) st = run W cs2 (run W cs1 st).
Proof. unfold run. apply fold_left_app. Qed.

Lemma run_effect (W : World) (cs : list Call) :
  forall st,
    sockPaths st = [] ->
    let st' := run W cs st in
    sockPaths st' = [] /\
    sockets st' = sockets st ++ flat_map (prehook_conns W) cs /\
    dials (trace st') = dials (trace st) ++ flat_map (prehook_dials W) cs /\
    resolutions (trace st') =
      resolutions (trace st) + length (filter is_PreRun cs).
Proof.
  induction cs as [| c cs IH]; intros st Hsp; cbn [run fold_left flat_map filter].
  - rewrite !app_nil_r. cbn. auto.
  - destruct (call_effect W c st Hsp) as (H1 & H2 & H3 & H4).
    destruct (IH (call W c st) H1) as (I1 & I2 & I3 & I4).
    unfold run in I1, I2, I3, I4.
    rewrite I2, I3, I4, H2, H3, H4, <- !app_assoc.
    repeat split; auto.
    destruct (is_PreRun c); cbn [length]; lia.
Qed.

Lemma publishes_no_PreRun (W : World) (body : list (string * Event)) :
  flat_map (prehook_conns W) (publishes body) = [] /\
  flat_map (prehook_dials W) (publishes body) = [] /\
  filter is_PreRun (publishes body) = [].
Proof. induction body as [| b body (I1 & I2 & I3)]; cbn; auto. Qed.

(** ** Endpoint resolution *)

(** C9. When the override variable PODMAN_MACHINE_EVENTS_SOCK is set to
    a path P, [resolveEventSock] returns exactly the one-element
    sequence [P] and no error, whatever the file system holds (the world
    [W] is arbitrary), and it scans nothing: looking the variable up is
    all it does. *)
Theorem C9_override_returns_exactly_P (W : World) (P : string) (st : State) :
  os_LookupEnv W "PODMAN_MACHINE_EVENTS_SOCK" = Some P ->
  resolveEventSock W st =
    (([P], None), add_trace st [ALookupEnv "PODMAN_MACHINE_EVENTS_SOCK"]) /\
  scans (trace (snd (resolveEventSock W st))) = scans (trace st).
Proof.
  intros Henv. rewrite resolveEventSock_cases, Henv. split; [reflexivity |].
  cbn. rewrite scans_app. cbn. lia.
Qed.

Lemma C9_override_witness :
  resolveEventSock Demo.override initial =
    ((["/tmp/test.sock"], None),
     add_trace initial [ALookupEnv "PODMAN_MACHINE_EVENTS_SOCK"]) /\
  scans (trace (snd (resolveEventSock Demo.override initial))) =
    scans (trace initial).
Proof.
  apply (@C9_override_returns_exactly_P Demo.override "/tmp/test.sock" initial).
  reflexivity.
Defined.

(** ** The post-run hook *)

(** C10. The post-run hook attempts to close every live connection, in
    order, whatever each close returns (the world [W], and with it the
    result of every close, is arbitrary) and returns no error. In the
    command runner it runs after the body whatever the body's outcome
    was. *)
Theorem C10_post_hook_closes_all (W : World) (cmd : string) (st : State)
    (body : list (string * Event)) (outcome : option error) :
  closeMachineEvents W cmd st =
    (None,
     add_trace st
       (ALog Debug "Called machine %s.PersistentPostRunE(%s)"
          [LStr cmd; LStr (String.concat " " (os_Args W))]
        :: map (fun c => AClose c (conn_Close W c)) (sockets st))) /\
  closes (trace (snd (closeMachineEvents W cmd st))) =
    closes (trace st) ++ sockets st /\
  executeMachineCmd W cmd body outcome st =
    match initMachineEvents W cmd st with
    | (Some err, st1) => (Some err, st1)
    | (None, st1) =>
        (outcome,
         snd (closeMachineEvents W cmd (run W (publishes body) st1)))
    end.
Proof.
  rewrite closeMachineEvents_spec. split; [reflexivity |]. split.
  - cbn [snd add_trace trace]. rewrite closes_app. cbn [closes].
    rewrite closes_close_trace. reflexivity.
  - unfold executeMachineCmd. unfold bind at 1.
    destruct (initMachineEvents W cmd st) as [[err |] st1]; [reflexivity |].
    unfold bind. rewrite closeMachineEvents_spec. cbn [snd].
    destruct outcome; reflexivity.
Qed.

(** ** The walk filter *)

Lemma keeps_iff (d : DirEntry) :
  keeps d = true <->
  IsDir d = false /\ Type_ d = ModeSocket /\
  exists a mid b,
    Name d = (a ++ "machine_events" ++ mid ++ ".sock" ++ b)%string /\
    Regexp.no_newline mid = true.
Proof.
  unfold keeps. rewrite !andb_true_iff, negb_true_iff, N.eqb_eq, re_MatchString.
  tauto.
Qed.

(** A walk that meets no failure finds the kept entries among all
    entries, in walk order. *)
Lemma walk_found_entries (W : World) (n : FsNode) :
  forall path,
    walk_failure W path n = None ->
    walk_found W path n =
    map fst (filter (fun pe => keeps (snd pe)) (entries W path n)).
Proof.
  induction n as [d dirs rderr IH] using FsNode_ind; intros path.
  cbn [walk_failure walk_found entries filter snd].
  destruct (IsDir d) eqn:Hdir.
  - rewrite keeps_not_dir by assumption.
    destruct rderr as [[op errno] |]; [discriminate |].
    induction IH as [| d1 ds Hd1 _ IHds]; [reflexivity |].
    destruct (walk_failure W (filepath_Join W path (Name (entry_of d1))) d1)
      eqn:Hf; [discriminate |].
    intros Hrest. rewrite filter_app, map_app, <- Hd1, <- IHds; auto.
  - intros _. destruct (keeps d); reflexivity.
Qed.

(** C3 (as amended). On visiting an entry, [fn] includes its path as an
    endpoint exactly when the entry is not a directory, its type is
    socket, and its name contains [machine_events] followed further on,
    with no line feed in between, by [.sock]: the pattern is searched
    for anywhere in the name, it is not anchored at its ends. Nothing
    else changes the list; a walk that meets no failure returns the
    paths of exactly these entries, in walk order. *)
Theorem C3_walk_includes (W : World) (path : string) (d : DirEntry)
    (n : FsNode) (acc : list string) (st : State) :
  (snd (fst (fn path (Visit d) acc st)) = acc ++ [path] <->
   IsDir d = false /\ Type_ d = ModeSocket /\
   exists a mid b,
     Name d = (a ++ "machine_events" ++ mid ++ ".sock" ++ b)%string /\
     Regexp.no_newline mid = true) /\
  (snd (fst (fn path (Visit d) acc st)) <> acc ++ [path] ->
   snd (fst (fn path (Visit d) acc st)) = acc) /\
  fst (fst (fn path (Visit d) acc st)) = None /\
  (walk_failure W path n = None ->
   fst (walkDir W fn path n acc st) =
   (None, acc ++ map fst (filter (fun pe => keeps (snd pe)) (entries W path n)))).
Proof.
  rewrite <- keeps_iff, fn_Visit. repeat split.
  - destruct (keeps d); cbn [fst snd]; auto.
    intros H. apply (f_equal (@List.length string)) in H.
    rewrite length_app in H. cbn in H. lia.
  - intros ->. reflexivity.
  - destruct (keeps d); cbn [fst snd]; [intros H; contradiction | auto].
  - destruct (keeps d); reflexivity.
  - intros Hf. rewrite walkDir_fn, Hf, walk_found_entries by assumption.
    reflexivity.
Qed.

Lemma C3_walk_includes_witness :
  fst (walkDir Demo.scanning fn "/run/user/1000/podman" Demo.podmanDir []
         initial) =
  (None, ["/run/user/1000/podman/machine_events.1.sock";
          "/run/user/1000/podman/machine_events.2.sock"]).
Proof.
  apply (proj2 (proj2 (proj2
           (@C3_walk_includes Demo.scanning "/run/user/1000/podman"
              (entry_of Demo.podmanDir) Demo.podmanDir [] initial)))).
  reflexivity.
Defined.

(** C3 (as worded) fails: a socket named [old-machine_events.1.sock.bak]
    has neither the prefix nor the suffix, yet [fn] includes it. *)
Lemma C3_walk_rule_counterexample :
  let d := {| Name := "old-machine_events.1.sock.bak"; Mode := ModeSocket |} in
  snd (fst (fn "/run/user/1000/podman/old-machine_events.1.sock.bak"
              (Visit d) [] initial))
  = ["/run/user/1000/podman/old-machine_events.1.sock.bak"] /\
  Spec.includes d = false /\
  ~ Spec.walk_rule.
Proof.
  cbv zeta. split; [reflexivity |]. split; [reflexivity |].
  intros H.
  specialize (H "/run/user/1000/podman/old-machine_events.1.sock.bak"
                {| Name := "old-machine_events.1.sock.bak"; Mode := ModeSocket |}).
  destruct H as [H _]. specialize (H eq_refl). discriminate H.
Qed.

Example spec_includes_plain :
  Spec.includes {| Name := "machine_events.1.sock"; Mode := ModeSocket |} = true.
Proof. reflexivity. Qed.

(** ** The pre-run hook and the connection pool *)

Lemma length_dial_conns (W : World) (paths : list string) :
  List.length (dial_conns W paths) = List.length (filter (dial_ok W) paths).
Proof.
  induction paths as [| p paths IH]; cbn [dial_conns flat_map filter]; auto.
  unfold dial_ok at 1. destruct (net_Dial W p); cbn [app List.length];
    fold (dial_conns W paths); auto.
Qed.

(** What the pre-run hook does to sockets and dials, from any state. *)
Lemma initMachineEvents_effect (W : World) (cmd : string) (st : State) :
  let st' := snd (initMachineEvents W cmd st) in
  fst (initMachineEvents W cmd st) = snd (resolved W) /\
  sockPaths st' = sockPaths st /\
  sockets st' = sockets st ++ dial_conns W (fst (resolved W)) /\
  dials (trace st') = dials (trace st) ++ fst (resolved W) /\
  resolutions (trace st') = resolutions (trace st) + 1.
Proof.
  rewrite initMachineEvents_spec. cbv zeta.
  destruct (resolve_trace_quiet W) as [Hd Hr].
  destruct (resolved W) as [paths [err |]] eqn:Hres.
  - pose proof (@resolved_error_nil W err) as Hn.
    rewrite Hres in Hn. specialize (Hn eq_refl). cbn in Hn. subst paths.
    cbn [fst snd add_trace sockPaths sockets trace dial_conns flat_map].
    rewrite !app_nil_r, dials_app, resolutions_app. cbn [dials resolutions].
    rewrite Hd, Hr, app_nil_r. auto.
  - cbn [fst snd sockPaths sockets trace].
    rewrite dials_app, resolutions_app. cbn [dials resolutions].
    rewrite dials_app, resolutions_app, Hd, Hr, dials_dial_trace,
      resolutions_dial_trace.
    repeat split; auto; lia.
Qed.

(** C1 (as amended). The pre-run hook resolves the endpoints, once, and
    dials every resolved endpoint itself, once each and in resolution
    order; the connections of the dials that succeed are appended to the
    live set; its result is the resolution error, if any. *)
Theorem C1_prehook_resolves_and_dials (W : World) (cmd : string) (st : State) :
  let st' := snd (initMachineEvents W cmd st) in
  fst (initMachineEvents W cmd st) = snd (fst (resolveEventSock W st)) /\
  resolutions (trace st') = resolutions (trace st) + 1 /\
  dials (trace st') = dials (trace st) ++ fst (fst (resolveEventSock W st)) /\
  sockets st' =
    sockets st ++ dial_conns W (fst (fst (resolveEventSock W st))).
Proof.
  cbv zeta. rewrite resolveEventSock_spec. cbn [fst].
  destruct (initMachineEvents_effect W cmd st) as (H1 & _ & H3 & H4 & H5).
  auto.
Qed.

(** C1 (as worded) fails: with the override naming [/tmp/test.sock] the
    pre-run hook dials that socket and leaves the package-level path
    list empty, and the first publish dials nothing. *)
Lemma C1_lazy_dial_counterexample :
  let st1 := snd (initMachineEvents Demo.override "start" initial) in
  let st2 := snd (newMachineEvent Demo.override "running" Demo.event st1) in
  fst (resolved Demo.override) = ["/tmp/test.sock"] /\
  dials (trace st1) = ["/tmp/test.sock"] /\
  sockPaths st1 = [] /\
  dials (trace st2) = dials (trace st1) /\
  ~ Spec.lazy_dial Demo.override.
Proof.
  cbv zeta. repeat split; try reflexivity.
  intros H. destruct (H "start" "running" Demo.event) as [H1 _].
  discriminate H1.
Qed.

(** C2. In every execution (any sequence of calls of the hooks and of
    publish, from process start, in any world): the package-level
    [sockPaths] is empty, so the [Do] body of publish ranges over no
    path; a publish dials nothing and leaves the socket set as it is;
    and the socket set is made of what the pre-run hook calls opened,
    in order. *)
Theorem C2_sockets_come_from_prehook (W : World) (cs : list Call)
    (status : string) (event : Event) :
  let st := run W cs initial in
  let st' := snd (newMachineEvent W status event st) in
  sockPaths st = [] /\
  once_paths st = [] /\
  dials (trace st') = dials (trace st) /\
  sockets st' = sockets st /\
  sockets st =
    flat_map (fun c =>
      match c with
      | PreRun cmd => sockets (snd (initMachineEvents W cmd initial))
      | _ => []
      end) cs.
Proof.
  cbv zeta.
  destruct (run_effect W cs initial eq_refl) as (Hsp & Hso & _ & _).
  destruct (call_effect W (Publish status event) (run W cs initial) Hsp)
    as (_ & Pso & Pd & _).
  cbn [call prehook_conns prehook_dials] in Pso, Pd.
  rewrite app_nil_r in Pso, Pd.
  repeat split; auto.
  - unfold once_paths. rewrite Hsp. destruct (openEventSock _); reflexivity.
  - rewrite Hso. cbn [initial sockets app].
    apply flat_map_ext. intros [cmd | s e | cmd]; cbn [prehook_conns]; auto.
    destruct (initMachineEvents_effect W cmd initial) as (_ & _ & -> & _).
    reflexivity.
Qed.

(** C5. Initialisation is the pre-run hook, from process start. When
    resolution yields the paths [paths] (N of them) and K of them dial
    successfully, the hook dials each path once and leaves K live
    connections, K <= N; the next publish dials nothing again (no retry)
    and, its event serialised to [payload], makes exactly K write
    attempts, each of [payload], one per live connection. *)
Theorem C5_K_of_N (W : World) (cmd status : string) (event : Event)
    (paths : list string) (payload : string) :
  let K := List.length (filter (dial_ok W) paths) in
  let st1 := snd (initMachineEvents W cmd initial) in
  let st2 := snd (newMachineEvent W status event st1) in
  resolved W = (paths, None) ->
  json_Marshal W (stamp status (time_Now W (List.length (trace st1))) event)
    = inl payload ->
  dials (trace st1) = paths /\
  List.length (sockets st1) = K /\
  K <= List.length paths /\
  dials (trace st2) = dials (trace st1) /\
  writes (trace st2) = map (fun c => (c, payload)) (sockets st1) /\
  List.length (writes (trace st2)) = K.
Proof.
  cbv zeta. intros Hres Hpay.
  destruct (initMachineEvents_effect W cmd initial) as (_ & Hsp & Hso & Hd & _).
  rewrite Hres in Hso, Hd. cbn [fst initial sockets trace dials app] in Hso, Hd, Hsp.
  assert (HK : List.length (sockets (snd (initMachineEvents W cmd initial))) =
               List.length (filter (dial_ok W) paths))
    by (rewrite Hso; apply length_dial_conns).
  assert (Hw0 : writes (trace (snd (initMachineEvents W cmd initial))) = []).
  { rewrite initMachineEvents_spec, Hres. cbn [snd trace initial app].
    cbn [writes]. rewrite writes_app, writes_dial_trace, app_nil_r.
    unfold resolve_trace. rewrite resolveEventSock_cases.
    destruct (os_LookupEnv W "PODMAN_MACHINE_EVENTS_SOCK"); [reflexivity |].
    destruct (util_GetRuntimeDir W) as [xdg |]; [| reflexivity].
    cbn [snd trace add_trace initial app writes].
    apply (scan_action_quiet (scan_trace_scan W (filepath_Join W xdg "podman"))). }
  assert (Hpub :
    writes (trace (snd (newMachineEvent W status event
                          (snd (initMachineEvents W cmd initial))))) =
    map (fun c => (c, payload)) (sockets (snd (initMachineEvents W cmd initial)))).
  { rewrite newMachineEvent_spec. cbv zeta.
    assert (Hop : once_paths (snd (initMachineEvents W cmd initial)) = [])
      by (unfold once_paths; rewrite Hsp; destruct (openEventSock _); auto).
    rewrite Hop. cbn [dial_trace dial_conns flat_map app snd trace].
    rewrite !app_nil_r, Hpay, writes_app, Hw0. cbn [writes app].
    apply writes_write_trace. }
  repeat split; auto.
  - rewrite <- HK, Hso, length_dial_conns. apply filter_length_le.
  - destruct (call_effect W (Publish status event)
                (snd (initMachineEvents W cmd initial)) Hsp) as (_ & _ & Pd & _).
    cbn [call prehook_dials] in Pd. rewrite app_nil_r in Pd. exact Pd.
  - rewrite Hpub, length_map. exact HK.
Qed.

Lemma C5_K_of_N_witness :
  let W := Demo.scanning in
  let st1 := snd (initMachineEvents W "start" initial) in
  let st2 := snd (newMachineEvent W "running" Demo.event st1) in
  dials (trace st1) =
    ["/run/user/1000/podman/machine_events.1.sock";
     "/run/user/1000/podman/machine_events.2.sock"] /\
  List.length (sockets st1) = 1 /\
  1 <= 2 /\
  dials (trace st2) = dials (trace st1) /\
  writes (trace st2) = map (fun c => (c, "machine:running")) (sockets st1) /\
  List.length (writes (trace st2)) = 1.
Proof.
  apply (@C5_K_of_N Demo.scanning "start" "running" Demo.event
           ["/run/user/1000/podman/machine_events.1.sock";
            "/run/user/1000/podman/machine_events.2.sock"]
           "machine:running"); reflexivity.
Defined.

(** ** Publish *)

(** Publish in a state whose [sockPaths] is empty (every state of a
    run): no dial, then stamp, serialise, write. *)
Lemma newMachineEvent_no_paths (W : World) (status : string) (event : Event)
    (st : State) :
  sockPaths st = [] ->
  let t := time_Now W (List.length (trace st)) in
  let e := stamp status t event in
  newMachineEvent W status event st =
  (tt,
   {| sockPaths := []; openEventSock := true; sockets := sockets st;
      trace := trace st ++ ANow t :: AMarshal e ::
               match json_Marshal W e with
               | inl payload => write_trace W payload (sockets st)
               | inr err =>
                   [ALog Error "Unable to format machine event: %q" [LErr err]]
               end |}).
Proof.
  intros Hsp. rewrite newMachineEvent_spec. cbv zeta.
  assert (Hop : once_paths st = [])
    by (unfold once_paths; rewrite Hsp; destruct (openEventSock st); auto).
  rewrite Hop, Hsp. cbn [dial_trace dial_conns flat_map app].
  rewrite !app_nil_r. reflexivity.
Qed.

Lemma run_sockPaths (W : World) (cs : list Call) :
  sockPaths (run W cs initial) = [].
Proof. apply (run_effect W cs initial eq_refl). Qed.

(** C7. Publish returns nothing (its result is the unit value), in
    every state of every run. When the event serialises to [payload],
    what it leaves on the trace after stamping is, for each live
    connection in order, one write attempt of [payload], followed by one
    error log entry when that write failed: a failure neither stops the
    loop nor changes the socket set, so one attempt is made per
    connection whatever the writes return. When serialising fails, the
    failure is logged and nothing is written. *)
Theorem C7_publish_contains_failures (W : World) (cs : list Call)
    (status : string) (event : Event) :
  let st := run W cs initial in
  let t := time_Now W (List.length (trace st)) in
  let e := stamp status t event in
  let st' := snd (newMachineEvent W status event st) in
  fst (newMachineEvent W status event st) = tt /\
  sockets st' = sockets st /\
  match json_Marshal W e with
  | inl payload =>
      trace st' =
        trace st ++ [ANow t; AMarshal e] ++
        flat_map (fun c =>
          match conn_Write W c payload with
          | Some err =>
              [AWrite c payload (Some err);
               ALog Error "Unable to write machine event: %q" [LErr err]]
          | None => [AWrite c payload None]
          end) (sockets st) /\
      writes (trace st') =
        writes (trace st) ++ map (fun c => (c, payload)) (sockets st)
  | inr err =>
      trace st' =
        trace st ++
        [ANow t; AMarshal e;
         ALog Error "Unable to format machine event: %q" [LErr err]] /\
      writes (trace st') = writes (trace st)
  end.
Proof.
  cbv zeta.
  rewrite (newMachineEvent_no_paths W status event _ (run_sockPaths W cs)).
  cbv zeta. cbn [fst snd sockets trace].
  split; [reflexivity |]. split; [reflexivity |].
  destruct (json_Marshal W _) as [payload | err].
  - split; [reflexivity |].
    rewrite writes_app. cbn [writes]. rewrite writes_write_trace. reflexivity.
  - split; [reflexivity |].
    rewrite writes_app. cbn [writes]. apply app_nil_r.
Qed.

(** C8. In every state of every run, for every partial event of the
    caller: exactly one event is handed to the serialiser, and it
    carries the status argument, the clock reading of the instant of the
    call and the machine category, whatever the caller had put in these
    three fields; the caller's remaining fields are kept. Every payload
    written by the call is the serialisation of that stamped event. *)
Theorem C8_publish_stamps (W : World) (cs : list Call)
    (status : string) (event : Event) :
  let st := run W cs initial in
  let st' := snd (newMachineEvent W status event st) in
  exists e,
    marshalled (trace st') = marshalled (trace st) ++ [e] /\
    Status e = status /\
    Time e = time_Now W (List.length (trace st)) /\
    Type' e = events_Machine /\
    Context e = Context event /\
    forall c payload,
      In (c, payload) (writes (trace st')) ->
      In (c, payload) (writes (trace st)) \/ json_Marshal W e = inl payload.
Proof.
  cbv zeta.
  rewrite (newMachineEvent_no_paths W status event _ (run_sockPaths W cs)).
  cbv zeta. cbn [snd trace].
  exists (stamp status (time_Now W (List.length (trace (run W cs initial)))) event).
  split; [| split; [reflexivity |]; split; [reflexivity |];
            split; [reflexivity |]; split; [reflexivity |]].
  - rewrite marshalled_app. cbn [marshalled]. f_equal.
    assert (H : forall l, Forall (fun a => match a with AMarshal _ => False | _ => True end) l ->
                          marshalled l = []).
    { induction 1 as [| a l Ha _ IH]; [reflexivity |].
      destruct a; cbn [marshalled]; auto; contradiction. }
    rewrite H; [reflexivity |].
    destruct (json_Marshal W _) as [payload | err]; [| repeat constructor].
    unfold write_trace. apply Forall_flat_map, Forall_forall. intros c _.
    destruct (conn_Write W c payload); repeat constructor.
  - intros c payload. rewrite writes_app. cbn [writes].
    rewrite in_app_iff. intros [H | H]; [auto |]. right.
    destruct (json_Marshal W _) as [p | err]; [| contradiction].
    rewrite writes_write_trace in H. apply in_map_iff in H as (c' & Heq & _).
    inversion Heq; subst. reflexivity.
Qed.

(** ** Whole runs *)

Lemma NoDup_map_fst_filter {A B} (f : A * B -> bool) (l : list (A * B)) :
  NoDup (map fst l) -> NoDup (map fst (filter f l)).
Proof.
  induction l as [| x l IH]; cbn [map filter]; intros H; [constructor |].
  inversion H as [| ? ? Hx Hl]; subst.
  destruct (f x); cbn [map]; auto.
  constructor; auto.
  intros Hin. apply Hx.
  apply in_map_iff in Hin as (y & Hy & Hin).
  apply filter_In in Hin as [Hin _].
  apply in_map_iff. eauto.
Qed.

(** When the scanned entries have distinct paths, resolution lists no
    path twice. *)
Lemma resolved_NoDup (W : World) :
  distinct_paths W -> NoDup (fst (resolved W)).
Proof.
  unfold distinct_paths, resolved. rewrite resolveEventSock_cases.
  destruct (os_LookupEnv W "PODMAN_MACHINE_EVENTS_SOCK") as [sock |].
  - intros _. cbn. constructor; [intros [] | constructor].
  - destruct (util_GetRuntimeDir W) as [xdg | err];
      [| intros _; constructor].
    cbv zeta. cbn [fst].
    unfold scan_failure, scan_found.
    destruct (os_Lstat W (filepath_Join W xdg "podman")) as [n | errno];
      [| intros _; constructor].
    destruct (walk_failure W (filepath_Join W xdg "podman") n) eqn:Hf;
      [intros _; constructor |].
    intros Hnd. cbn [fst]. rewrite walk_found_entries by assumption.
    apply NoDup_map_fst_filter. exact Hnd.
Qed.

(** C4. In a process run (the pre-run hook, then any number of publish
    calls, then the post-run hook) endpoints are resolved once and the
    paths dialed over the whole run are the resolved sequence, entry
    for entry: one dial per resolved endpoint, however many events are
    published. A path is therefore dialed as often as resolution lists
    it: exactly once for the path of the override variable, and at most
    once for a scanned directory whose entries have distinct paths.
    Without the pre-run hook nothing is dialed at all. *)
Theorem C4_each_endpoint_dialed_once (W : World) (cmd : string)
    (body : list (string * Event)) :
  let st := run W (PreRun cmd :: publishes body ++ [PostRun cmd]) initial in
  resolutions (trace st) = 1 /\
  dials (trace st) = fst (resolved W) /\
  (forall p,
     count_occ string_dec (dials (trace st)) p =
     count_occ string_dec (fst (resolved W)) p) /\
  (distinct_paths W ->
   forall p, count_occ string_dec (dials (trace st)) p <= 1) /\
  (forall P,
     os_LookupEnv W "PODMAN_MACHINE_EVENTS_SOCK" = Some P ->
     dials (trace st) = [P]) /\
  dials (trace (run W (publishes body ++ [PostRun cmd]) initial)) = [].
Proof.
  cbv zeta.
  destruct (publishes_no_PreRun W body) as (_ & Bd & Br).
  assert (Hd : dials (trace (run W (PreRun cmd :: publishes body ++ [PostRun cmd])
                               initial)) = fst (resolved W)).
  { destruct (run_effect W (PreRun cmd :: publishes body ++ [PostRun cmd])
                initial eq_refl) as (_ & _ & -> & _).
    cbn [flat_map prehook_dials initial trace dials app].
    rewrite flat_map_app, Bd. cbn. apply app_nil_r. }
  split; [| split; [exact Hd | split; [| split; [| split]]]].
  - destruct (run_effect W (PreRun cmd :: publishes body ++ [PostRun cmd])
                initial eq_refl) as (_ & _ & _ & ->).
    cbn [filter is_PreRun initial trace resolutions].
    rewrite filter_app, Br. reflexivity.
  - intros p. rewrite Hd. reflexivity.
  - intros Hnd p. rewrite Hd. apply NoDup_count_occ.
    apply resolved_NoDup. exact Hnd.
  - intros P Henv. rewrite Hd. unfold resolved.
    rewrite resolveEventSock_cases, Henv. reflexivity.
  - destruct (run_effect W (publishes body ++ [PostRun cmd]) initial eq_refl)
      as (_ & _ & -> & _).
    rewrite flat_map_app, Bd. reflexivity.
Qed.

Lemma C4_each_endpoint_dialed_once_witness :
  count_occ string_dec
    (dials (trace
       (run Demo.scanning
          (PreRun "start"
           :: publishes [("starting", Demo.event); ("running", Demo.event);
                         ("stopped", Demo.event)] ++ [PostRun "start"])
          initial)))
    "/run/user/1000/podman/machine_events.1.sock" <= 1.
Proof.
  apply (proj1 (proj2 (proj2 (proj2
           (@C4_each_endpoint_dialed_once Demo.scanning "start"
              [("starting", Demo.event); ("running", Demo.event);
               ("stopped", Demo.event)]))))).
  change (NoDup ["/run/user/1000/podman";
                 "/run/user/1000/podman/machine_events.1.sock";
                 "/run/user/1000/podman/machine_events.2.sock";
                 "/run/user/1000/podman/machine_events.3.sock";
                 "/run/user/1000/podman/machine";
                 "/run/user/1000/podman/machine/qemu.sock"]).
  repeat constructor; simpl; intuition discriminate.
Defined.

(* ================================================================== *)
(** * Further properties                                                *)
(* ================================================================== *)

(** ** Shell completion *)

Lemma prefix_iff_append (a s : string) :
  String.prefix a s = true <-> exists rest, s = (a ++ rest)%string.
Proof.
  revert s. induction a as [| c a IH]; intros s.
  - destruct s; simpl; split; eauto.
  - destruct s as [| d s]; simpl.
    + split; [discriminate | intros [rest H]; discriminate].
    + destruct (ascii_dec c d) as [-> | Hne].
      * rewrite IH. split; intros [rest H]; exists rest; congruence.
      * split; [discriminate |]. intros [rest H]. congruence.
Qed.

Lemma range_filter (t : string) (machines : list Completion.ListResponse) :
  forall acc,
    Completion.range t machines acc =
    acc ++ filter (String.prefix t) (map Completion.Name machines).
Proof.
  induction machines as [| m ms IH]; intros acc; cbn [Completion.range map filter].
  - symmetry. apply app_nil_r.
  - rewrite IH. destruct (String.prefix t (Completion.Name m)); auto.
    rewrite <- app_assoc. reflexivity.
Qed.

(** When the provider lists the machines, [getMachines] suggests the
    names that start with the typed text, each as often and in the
    order the provider listed it, asks for no file completion and
    prints nothing: a name is suggested exactly when it is the name of a
    listed machine and extends the typed text. *)
Theorem getMachines_suggests_prefixed
    (machines : list Completion.ListResponse) (toComplete : string) :
  let r := Completion.getMachines (inl machines) toComplete in
  Completion.suggestions r =
    Some (filter (String.prefix toComplete) (map Completion.Name machines)) /\
  Completion.directive r = Completion.ShellCompDirectiveNoFileComp /\
  Completion.printed r = [] /\
  forall name,
    In name (filter (String.prefix toComplete) (map Completion.Name machines))
    <->
    (exists m, In m machines /\ Completion.Name m = name) /\
    exists rest, name = (toComplete ++ rest)%string.
Proof.
  cbv zeta. unfold Completion.getMachines. cbn.
  rewrite range_filter. cbn [app].
  split; [reflexivity |]. split; [reflexivity |]. split; [reflexivity |].
  intros name. rewrite filter_In, in_map_iff, prefix_iff_append.
  split.
  - intros [(m & Hm & Hin) Hpre]. eauto.
  - intros [(m & Hin & Hm) Hpre]. eauto.
Qed.

(** The two completers give cobra the same suggestions and print the
    same errors on every input. A suggestion is only ever made when no
    positional argument has been typed yet and the provider could list
    the machines, and it is then a listed machine name that extends the
    typed text; an error is printed only when the provider failed. With
    a positional argument present, the provider's answer plays no part
    and the completers differ in the directive alone. *)
Theorem autocompleters_agree
    (provider_List : list Completion.ListResponse + error)
    (args : list string) (toComplete : string) :
  let r := Completion.autocompleteMachine provider_List args toComplete in
  let r' := Completion.autocompleteMachineSSH provider_List args toComplete in
  Completion.suggestions r = Completion.suggestions r' /\
  Completion.printed r = Completion.printed r' /\
  (forall l name,
     Completion.suggestions r = Some l -> In name l ->
     args = [] /\
     exists machines m,
       provider_List = inl machines /\ In m machines /\
       Completion.Name m = name /\
       String.prefix toComplete name = true) /\
  (forall err, In err (Completion.printed r) ->
     args = [] /\ provider_List = inr err) /\
  (args <> [] ->
   r = {| Completion.suggestions := None;
          Completion.directive := Completion.ShellCompDirectiveNoFileComp;
          Completion.printed := [] |} /\
   r' = {| Completion.suggestions := None;
           Completion.directive := Completion.ShellCompDirectiveDefault;
           Completion.printed := [] |}).
Proof.
  cbv zeta. unfold Completion.autocompleteMachine, Completion.autocompleteMachineSSH.
  destruct args as [| a args]; cbn [List.length Nat.eqb].
  - split; [reflexivity |]. split; [reflexivity |]. split; [| split].
    + intros l name Hl Hin. split; [reflexivity |].
      unfold Completion.getMachines in Hl.
      destruct provider_List as [machines | err]; cbn in Hl; [| discriminate].
      inversion Hl; subst l. rewrite range_filter in Hin. cbn [app] in Hin.
      apply filter_In in Hin as [Hin Hpre].
      apply in_map_iff in Hin as (m & Hm & Hin).
      exists machines, m. auto.
    + intros err Hin. split; [reflexivity |].
      unfold Completion.getMachines in Hin.
      destruct provider_List as [machines | err']; cbn in Hin; [contradiction |].
      destruct Hin as [-> | []]. reflexivity.
    + intros H. contradiction H. reflexivity.
  - split; [reflexivity |]. split; [reflexivity |]. split; [| split].
    + intros l name Hl. discriminate Hl.
    + intros err [].
    + intros _. split; reflexivity.
Qed.

Lemma autocompleters_agree_witness :
  Completion.autocompleteMachine (inl Samples.machines) ["dev"] "pod" =
    {| Completion.suggestions := None;
       Completion.directive := Completion.ShellCompDirectiveNoFileComp;
       Completion.printed := [] |} /\
  Completion.autocompleteMachineSSH (inl Samples.machines) ["dev"] "pod" =
    {| Completion.suggestions := None;
       Completion.directive := Completion.ShellCompDirectiveDefault;
       Completion.printed := [] |}.
Proof.
  apply (proj2 (proj2 (proj2 (proj2
           (@autocompleters_agree (inl Samples.machines) ["dev"] "pod"))))).
  discriminate.
Defined.

Lemma prefix_app_l (t u s : string) :
  String.prefix (t ++ u) s = true -> String.prefix t s = true.
Proof.
  rewrite !prefix_iff_append. intros [rest ->].
  exists (u ++ rest)%string. apply RegexpFacts.append_assoc.
Qed.

Lemma filter_prefix_all (names : list string) :
  filter (String.prefix "") names = names.
Proof.
  induction names as [| n names IH]; cbn [filter]; auto.
  destruct n; simpl; congruence.
Qed.

(** Typing more narrows the suggestions: what [getMachines] suggests for
    a text extended by [more] is what it suggested for the text, filtered
    by the longer text; typing nothing suggests every listed machine.
    When the provider fails there is no suggestion for either. *)
Theorem getMachines_narrows
    (provider_List : list Completion.ListResponse + error)
    (toComplete more : string) :
  Completion.suggestions
    (Completion.getMachines provider_List (toComplete ++ more)) =
  option_map (filter (String.prefix (toComplete ++ more)))
    (Completion.suggestions (Completion.getMachines provider_List toComplete))
  /\
  Completion.suggestions (Completion.getMachines provider_List "") =
  match provider_List with
  | inl machines => Some (map Completion.Name machines)
  | inr _ => None
  end.
Proof.
  unfold Completion.getMachines.
  destruct provider_List as [machines | err]; cbn; [| auto].
  rewrite !range_filter. cbn [app]. rewrite filter_prefix_all. split; auto.
  f_equal. induction (map Completion.Name machines) as [| n names IH];
    cbn [filter]; auto.
  destruct (String.prefix (toComplete ++ more) n) eqn:Hp.
  - rewrite (prefix_app_l _ _ _ Hp). cbn [filter]. rewrite Hp. congruence.
  - destruct (String.prefix toComplete n); cbn [filter]; rewrite ?Hp; auto.
Qed.

Example completion_demo :
  Completion.suggestions (Completion.getMachines (inl Samples.machines) "podman")
  = Some ["podman-machine-default"; "podman-test"].
Proof. reflexivity. Qed.

(** ** What the hooks and publish leave on the trace *)

Lemma quiet_dial_trace (W : World) (paths : list string) :
  closes (dial_trace W paths) = [] /\ marshalled (dial_trace W paths) = [].
Proof.
  induction paths as [| p paths [IH1 IH2]]; simpl; auto.
  destruct (net_Dial W p); simpl; auto.
Qed.

Lemma quiet_write_trace (W : World) (payload : string) (socks : list Conn) :
  closes (write_trace W payload socks) = [] /\
  marshalled (write_trace W payload socks) = [].
Proof.
  induction socks as [| c socks [IH1 IH2]]; simpl; auto.
  destruct (conn_Write W c payload); simpl; auto.
Qed.

Lemma quiet_close_trace (W : World) (socks : list Conn) :
  writes (close_trace W socks) = [] /\ marshalled (close_trace W socks) = [].
Proof. induction socks as [| c socks [IH1 IH2]]; simpl; auto. Qed.

Lemma resolve_trace_scan (W : World) : 
  writes (resolve_trace W) = [] /\ closes (resolve_trace W) = [] /\
  marshalled (resolve_trace W) = [].
Proof.
  unfold resolve_trace. rewrite resolveEventSock_cases.
  destruct (os_LookupEnv W "PODMAN_MACHINE_EVENTS_SOCK"); [cbn; auto |].
  destruct (util_GetRuntimeDir W) as [xdg | err]; [| cbn; auto].
  cbn [snd trace add_trace initial app]. cbn [writes closes marshalled].
  destruct (scan_action_quiet (scan_trace_scan W (filepath_Join W xdg "podman")))
    as (_ & Hw & Hc & Hm & _).
  auto.
Qed.

(** The event a publish serialises in state [st]. *)
Lemma publish_footprint (W : World) (status : string) (event : Event)
    (st : State) :
  sockPaths st = [] ->
  let e := stamp status (time_Now W (List.length (trace st))) event in
  let st' := snd (newMachineEvent W status event st) in
  sockPaths st' = [] /\
  sockets st' = sockets st /\
  marshalled (trace st') = marshalled (trace st) ++ [e] /\
  closes (trace st') = closes (trace st) /\
  writes (trace st') =
    writes (trace st) ++
    match json_Marshal W e with
    | inl payload => map (fun c => (c, payload)) (sockets st)
    | inr _ => []
    end.
Proof.
  intros Hsp. cbv zeta. rewrite (newMachineEvent_no_paths W status event st Hsp).
  cbv zeta. cbn [snd sockPaths sockets trace].
  rewrite marshalled_app, closes_app, writes_app.
  cbn [marshalled closes writes].
  destruct (json_Marshal W _) as [payload | err].
  - destruct (quiet_write_trace W payload (sockets st)) as [-> ->].
    rewrite writes_write_trace, app_nil_r. auto.
  - cbn. rewrite app_nil_r. auto.
Qed.

(** ** The post-run hook does not empty the socket set *)

(** The post-run hook leaves the socket set as it found it: it neither
    removes the connections it closed nor dials or writes. Run a second
    time it attempts to close every connection a second time, and
    again returns no error. *)
Theorem closeMachineEvents_twice_closes_twice (W : World) (cmd cmd' : string)
    (st : State) :
  let st1 := snd (closeMachineEvents W cmd st) in
  let st2 := snd (closeMachineEvents W cmd' st1) in
  sockets st1 = sockets st /\
  sockPaths st1 = sockPaths st /\
  openEventSock st1 = openEventSock st /\
  dials (trace st1) = dials (trace st) /\
  writes (trace st1) = writes (trace st) /\
  closes (trace st1) = closes (trace st) ++ sockets st /\
  closes (trace st2) = closes (trace st) ++ sockets st ++ sockets st /\
  fst (closeMachineEvents W cmd' st1) = None.
Proof.
  cbv zeta. rewrite !closeMachineEvents_spec.
  cbn [fst snd add_trace sockets sockPaths openEventSock trace].
  rewrite !dials_app, !writes_app, !closes_app.
  cbn [dials writes closes].
  rewrite !closes_close_trace, dials_close_trace.
  destruct (quiet_close_trace W (sockets st)) as [-> _].
  rewrite !app_nil_r, <- app_assoc. repeat split; reflexivity.
Qed.

(** Publishing after the post-run hook, in any run: the event is still
    written to every connection of the set, all of which the hook has
    closed. *)
Theorem publish_after_close_still_writes (W : World) (cs : list Call)
    (cmd status : string) (event : Event) :
  let st := run W (cs ++ [PostRun cmd]) initial in
  let e := stamp status (time_Now W (List.length (trace st))) event in
  let st' := snd (newMachineEvent W status event st) in
  closes (trace st) = closes (trace (run W cs initial)) ++ sockets st /\
  writes (trace st') =
    writes (trace st) ++
    match json_Marshal W e with
    | inl payload => map (fun c => (c, payload)) (sockets st)
    | inr _ => []
    end.
Proof.
  cbv zeta. split.
  - rewrite run_app. cbn [run fold_left call].
    rewrite closeMachineEvents_spec. cbn [snd add_trace trace sockets].
    rewrite closes_app. cbn [closes]. rewrite closes_close_trace. reflexivity.
  - apply (publish_footprint W status event _
             (run_sockPaths W (cs ++ [PostRun cmd]))).
Qed.

(** ** The pre-run hook is not guarded *)

(** Nothing keeps the pre-run hook from dialing again: run twice, it
    resolves twice, dials every resolved endpoint twice and the socket
    set holds the connections of both passes. *)
Theorem initMachineEvents_twice_dials_twice (W : World) (cmd cmd' : string)
    (st : State) :
  let st1 := snd (initMachineEvents W cmd st) in
  let st2 := snd (initMachineEvents W cmd' st1) in
  resolutions (trace st2) = resolutions (trace st) + 2 /\
  dials (trace st2) =
    dials (trace st) ++ fst (resolved W) ++ fst (resolved W) /\
  sockets st2 =
    sockets st ++ dial_conns W (fst (resolved W))
               ++ dial_conns W (fst (resolved W)).
Proof.
  cbv zeta.
  destruct (initMachineEvents_effect W cmd st) as (_ & _ & Hs & Hd & Hr).
  destruct (initMachineEvents_effect W cmd' (snd (initMachineEvents W cmd st)))
    as (_ & _ & Hs' & Hd' & Hr').
  rewrite Hs', Hd', Hr', Hs, Hd, Hr, <- !app_assoc.
  repeat split; auto. lia.
Qed.

(** ** A failing walk yields no endpoint at all *)

(** Without an override: when the walk meets a failure, the endpoints
    found before it are dropped, the resolved list is empty and the
    pre-run hook dials nothing. If the failure is a "does not exist"
    anywhere in the walk (a directory removed while walking), no error
    is reported either. *)
Theorem walk_failure_drops_found (W : World) (cmd : string) (st : State)
    (xdg : string) (err : error) :
  os_LookupEnv W "PODMAN_MACHINE_EVENTS_SOCK" = None ->
  util_GetRuntimeDir W = inl xdg ->
  scan_failure W (filepath_Join W xdg "podman") = Some err ->
  fst (resolveEventSock W st) =
    ([], if Is_ErrNotExist err then None else Some err) /\
  fst (initMachineEvents W cmd st) =
    (if Is_ErrNotExist err then None else Some err) /\
  sockets (snd (initMachineEvents W cmd st)) = sockets st /\
  dials (trace (snd (initMachineEvents W cmd st))) = dials (trace st).
Proof.
  intros Henv Hxdg Hfail.
  assert (Hres : resolved W = ([], if Is_ErrNotExist err then None else Some err)).
  { unfold resolved. rewrite resolveEventSock_cases, Henv, Hxdg.
    cbv zeta. rewrite Hfail. reflexivity. }
  split; [rewrite resolveEventSock_spec, Hres; reflexivity |].
  destruct (initMachineEvents_effect W cmd st) as (H1 & _ & H3 & H4 & _).
  rewrite Hres in H1, H3, H4. cbn [fst snd dial_conns flat_map] in H1, H3, H4.
  rewrite app_nil_r in H3, H4. auto.
Qed.

Lemma walk_failure_drops_found_witness :
  scan_found Samples.racing "/run/user/1000/podman" =
    ["/run/user/1000/podman/machine_events.1.sock"] /\
  fst (resolveEventSock Samples.racing initial) = ([], None) /\
  fst (initMachineEvents Samples.racing "start" initial) = None /\
  sockets (snd (initMachineEvents Samples.racing "start" initial)) = [] /\
  dials (trace (snd (initMachineEvents Samples.racing "start" initial))) = [].
Proof.
  split; [reflexivity |].
  apply (@walk_failure_drops_found Samples.racing "start" initial
           "/run/user/1000"
           (PathError "open" "/run/user/1000/podman/cache" ENOENT));
    reflexivity.
Defined.

(** ** The walk filter looks at the type bits and at the name only *)

Lemma ModeDir_in_ModeType (m : FileMode) :
  N.land m ModeType = 0%N -> N.land m ModeDir = 0%N.
Proof.
  intros H.
  replace ModeDir with (N.land ModeType ModeDir) by reflexivity.
  rewrite N.land_assoc, H. reflexivity.
Qed.

(** Permission and other non-type bits of the mode play no part: [fn]
    decides the same with them as without them. Any type bit other than
    the socket bit (directory, symbolic link, device, named pipe,
    character device, irregular) excludes the entry, whatever its
    name: a symbolic link to a socket is not an endpoint. *)
Theorem fn_reads_type_bits_only (path name : string) (mode other : FileMode)
    (acc : list string) (st : State) (bit : N) :
  (N.land other ModeType = 0%N ->
   fn path (Visit {| Name := name; Mode := N.lor mode other |}) acc st =
   fn path (Visit {| Name := name; Mode := mode |}) acc st) /\
  (In bit [31; 27; 26; 25; 21; 19]%N ->
   N.testbit mode bit = true ->
   fn path (Visit {| Name := name; Mode := mode |}) acc st = ((None, acc), st)).
Proof.
  split.
  - intros H. rewrite !fn_Visit.
    assert (Hk : keeps {| Name := name; Mode := N.lor mode other |} =
                 keeps {| Name := name; Mode := mode |}).
    { unfold keeps, IsDir, Type_. cbn [Name Mode].
      rewrite !N.land_lor_distr_l, H, (ModeDir_in_ModeType _ H), !N.lor_0_r.
      reflexivity. }
    rewrite Hk. reflexivity.
  - intros Hbit Hset. rewrite fn_Visit.
    assert (Hk : keeps {| Name := name; Mode := mode |} = false).
    { unfold keeps, Type_. cbn [Name Mode].
      destruct (N.eqb (N.land mode ModeType) ModeSocket) eqn:E;
        [| rewrite andb_false_r; reflexivity].
      apply N.eqb_eq in E.
      assert (Ht : N.testbit (N.land mode ModeType) bit = true).
      { rewrite N.land_spec, Hset.
        cbn [In] in Hbit.
        destruct Hbit as [<- | [<- | [<- | [<- | [<- | [<- | []]]]]]];
          reflexivity. }
      rewrite E in Ht.
      cbn [In] in Hbit.
      destruct Hbit as [<- | [<- | [<- | [<- | [<- | [<- | []]]]]]];
        discriminate Ht. }
    rewrite Hk. reflexivity.
Qed.

Lemma fn_reads_type_bits_only_witness :
  fn "/run/user/1000/podman/machine_events.sock"
     (Visit {| Name := "machine_events.sock";
               Mode := N.lor ModeSocket 384 |}) [] initial =
  fn "/run/user/1000/podman/machine_events.sock"
     (Visit {| Name := "machine_events.sock"; Mode := ModeSocket |}) [] initial
  /\
  fn "/run/user/1000/podman/machine_events.sock"
     (Visit {| Name := "machine_events.sock"; Mode := ModeSymlink |}) [] initial
  = ((None, []), initial).
Proof.
  split.
  - apply (proj1 (@fn_reads_type_bits_only
                    "/run/user/1000/podman/machine_events.sock"
                    "machine_events.sock" ModeSocket 384%N [] initial 27%N)).
    reflexivity.
  - apply (proj2 (@fn_reads_type_bits_only
                    "/run/user/1000/podman/machine_events.sock"
                    "machine_events.sock" ModeSymlink 0%N [] initial 27%N)).
    + simpl. auto.
    + reflexivity.
Defined.

(** ** The pattern is searched, not anchored *)

Lemma length_append (a b : string) :
  String.length (a ++ b) = String.length a + String.length b.
Proof. induction a; simpl; auto. Qed.

(** A name the pattern accepts is still accepted with any text put
    before and after it, and no name shorter than [machine_events.sock]
    (19 characters) is accepted. *)
Theorem re_accepts_extensions (name before after : string) :
  Regexp.MatchString re name = true ->
  Regexp.MatchString re (before ++ name ++ after)%string = true /\
  19 <= String.length name.
Proof.
  rewrite !re_MatchString. intros (a & mid & b & -> & Hmid). split.
  - exists (before ++ a)%string, mid, (b ++ after)%string. split; [| exact Hmid].
    rewrite !RegexpFacts.append_assoc. reflexivity.
  - rewrite !length_append. cbn. lia.
Qed.

Lemma re_accepts_extensions_witness :
  Regexp.MatchString re ("old-" ++ "machine_events.sock" ++ ".bak")%string = true
  /\ 19 <= String.length "machine_events.sock".
Proof.
  apply (@re_accepts_extensions "machine_events.sock" "old-" ".bak").
  reflexivity.
Defined.

(** ** Resolution keeps away from the package state *)

(** [resolveEventSock] reads and writes none of the package-level
    variables: from any state it returns what it returns at process
    start, leaves [sockPaths], the [Once] and the socket set as they
    are, and dials, writes and closes nothing. *)
Theorem resolveEventSock_frame (W : World) (st : State) :
  let st' := snd (resolveEventSock W st) in
  fst (resolveEventSock W st) = fst (resolveEventSock W initial) /\
  sockPaths st' = sockPaths st /\
  openEventSock st' = openEventSock st /\
  sockets st' = sockets st /\
  dials (trace st') = dials (trace st) /\
  writes (trace st') = writes (trace st) /\
  closes (trace st') = closes (trace st) /\
  resolutions (trace st') = resolutions (trace st) + 1.
Proof.
  cbv zeta. rewrite resolveEventSock_spec.
  cbn [fst snd add_trace sockPaths openEventSock sockets trace].
  rewrite dials_app, writes_app, closes_app, resolutions_app.
  destruct (resolve_trace_quiet W) as [-> ->].
  destruct (resolve_trace_scan W) as (-> & -> & _).
  rewrite !app_nil_r. repeat split; reflexivity.
Qed.

(** ** Publishing, call after call *)

Lemma prehook_fresh (W : World) (cmd : string) :
  let st1 := snd (initMachineEvents W cmd initial) in
  sockPaths st1 = [] /\
  sockets st1 = dial_conns W (fst (resolved W)) /\
  writes (trace st1) = [] /\ closes (trace st1) = [] /\
  marshalled (trace st1) = [].
Proof.
  cbv zeta.
  destruct (initMachineEvents_effect W cmd initial) as (_ & Hsp & Hso & _).
  split; [exact Hsp |]. split; [exact Hso |].
  rewrite initMachineEvents_spec. cbv zeta.
  destruct (resolve_trace_scan W) as (Hw & Hc & Hm).
  destruct (resolved W) as [paths [err |]];
    cbn [snd add_trace trace initial app writes closes marshalled].
  - auto.
  - rewrite writes_app, closes_app, marshalled_app, Hw, Hc, Hm,
      writes_dial_trace.
    destruct (quiet_dial_trace W paths) as [-> ->]. auto.
Qed.

Lemma publishes_footprint (W : World) (body : list (string * Event)) :
  forall st,
    sockPaths st = [] ->
    let st' := run W (publishes body) st in
    sockPaths st' = [] /\
    sockets st' = sockets st /\
    closes (trace st') = closes (trace st) /\
    exists es,
      marshalled (trace st') = marshalled (trace st) ++ es /\
      map Status es = map fst body /\
      writes (trace st') = writes (trace st) ++ deliveries W (sockets st) es.
Proof.
  induction body as [| [status event] body IH]; intros st Hsp.
  - cbn. repeat split; auto. exists []. cbn. rewrite !app_nil_r. auto.
  - cbn [publishes map run fold_left call fst snd].
    destruct (publish_footprint W status event st Hsp)
      as (Hsp1 & Hso1 & Hm1 & Hc1 & Hw1).
    destruct (IH _ Hsp1) as (Hsp2 & Hso2 & Hc2 & es & Hm2 & Hst & Hw2).
    unfold run, publishes in Hsp2, Hso2, Hc2, Hm2, Hw2.
    split; [exact Hsp2 |]. split; [congruence |]. split; [congruence |].
    eexists (_ :: es). split; [| split].
    + rewrite Hm2, Hm1, <- app_assoc. reflexivity.
    + cbn [map Status stamp fst]. rewrite Hst. reflexivity.
    + rewrite Hw2, Hw1, Hso1, <- app_assoc. reflexivity.
Qed.

Lemma length_deliveries_le (W : World) (socks : list Conn) (es : list Event) :
  List.length (deliveries W socks es) <= List.length es * List.length socks.
Proof.
  induction es as [| e es IH]; cbn [deliveries flat_map List.length]; auto.
  fold (deliveries W socks es). rewrite length_app.
  destruct (json_Marshal W e); [rewrite length_map |]; cbn [List.length]; lia.
Qed.

Lemma length_deliveries_total (W : World) (socks : list Conn) (es : list Event) :
  (forall e, exists payload, json_Marshal W e = inl payload) ->
  List.length (deliveries W socks es) = List.length es * List.length socks.
Proof.
  intros Htot.
  induction es as [| e es IH]; cbn [deliveries flat_map List.length]; auto.
  fold (deliveries W socks es). rewrite length_app, IH.
  destruct (Htot e) as [payload ->]. rewrite length_map. lia.
Qed.

(** After the pre-run hook, any number of publish calls: the events
    serialised carry, in order, the statuses published; the write
    attempts of the run are, event by event in that order, one per live
    connection in socket order, with that event's payload, none for an
    event that failed to serialise. So every connection is handed the
    payloads in the order they were published; there are at most (number
    of events) x (number of connections) attempts, and exactly that many
    when no serialisation fails. *)
Theorem publishes_write_in_order (W : World) (cmd : string)
    (body : list (string * Event)) :
  let st1 := snd (initMachineEvents W cmd initial) in
  let st := run W (publishes body) st1 in
  sockets st = sockets st1 /\
  map Status (marshalled (trace st)) = map fst body /\
  writes (trace st) = deliveries W (sockets st1) (marshalled (trace st)) /\
  List.length (writes (trace st)) <=
    List.length body * List.length (sockets st1) /\
  ((forall e, exists payload, json_Marshal W e = inl payload) ->
   List.length (writes (trace st)) =
     List.length body * List.length (sockets st1)).
Proof.
  cbv zeta.
  destruct (prehook_fresh W cmd) as (Hsp & _ & Hw & _ & Hm).
  destruct (publishes_footprint W body _ Hsp)
    as (_ & Hso & _ & es & Hes & Hst & Hwr).
  rewrite Hm in Hes. rewrite Hw in Hwr. cbn [app] in Hes, Hwr.
  assert (Hlen : List.length es = List.length body).
  { rewrite <- (length_map Status es), Hst, length_map. reflexivity. }
  rewrite Hes, Hwr, Hso, <- Hlen.
  split; [reflexivity |]. split; [exact Hst |]. split; [reflexivity |].
  split; [apply length_deliveries_le |].
  intros Htot. apply length_deliveries_total. exact Htot.
Qed.

Lemma publishes_write_in_order_witness :
  List.length
    (writes (trace
       (run Demo.override
          (publishes [("starting", Demo.event); ("running", Demo.event);
                      ("stopped", Demo.event)])
          (snd (initMachineEvents Demo.override "start" initial))))) =
  3 * List.length (sockets (snd (initMachineEvents Demo.override "start" initial))).
Proof.
  apply (proj2 (proj2 (proj2 (proj2
           (@publishes_write_in_order Demo.override "start"
              [("starting", Demo.event); ("running", Demo.event);
               ("stopped", Demo.event)]))))).
  intros e. exists (Type' e ++ ":" ++ Status e)%string. reflexivity.
Defined.

(** ** The [Once] of publish *)

Lemma dials_after_stamp (W : World) (e : Event) (socks : list Conn) (t : Z) :
  dials (ANow t :: AMarshal e ::
         match json_Marshal W e with
         | inl payload => write_trace W payload socks
         | inr err =>
             [ALog Error "Unable to format machine event: %q" [LErr err]]
         end) = [].
Proof.
  cbn [dials]. destruct (json_Marshal W e); [apply dials_write_trace | reflexivity].
Qed.

(** Whatever the package-level path list holds, only the first publish
    of a process can dial: a publish dials the listed paths if [Do] has
    not run yet (each once, in order, the successful connections joining
    the set) and leaves the [Once] done; the publish after it dials
    nothing and leaves the set as it is. *)
Theorem newMachineEvent_dials_at_most_once (W : World)
    (status status' : string) (event event' : Event) (st : State) :
  let st1 := snd (newMachineEvent W status event st) in
  let st2 := snd (newMachineEvent W status' event' st1) in
  openEventSock st1 = true /\
  sockPaths st1 = sockPaths st /\
  dials (trace st1) =
    dials (trace st) ++ (if openEventSock st then [] else sockPaths st) /\
  sockets st1 =
    sockets st ++
    dial_conns W (if openEventSock st then [] else sockPaths st) /\
  dials (trace st2) = dials (trace st1) /\
  sockets st2 = sockets st1.
Proof.
  cbv zeta. rewrite (newMachineEvent_spec W status event). cbv zeta.
  cbn [snd]. rewrite (newMachineEvent_spec W status' event'). cbv zeta.
  unfold once_paths.
  cbn [snd sockPaths openEventSock sockets trace dial_trace dial_conns
       flat_map app].
  rewrite !app_nil_r.
  rewrite !dials_app, !dials_after_stamp, dials_dial_trace, !app_nil_r.
  repeat split; reflexivity.
Qed.

(** ** The socket set only grows *)

(** In any run from any state, the socket set at the end is the socket
    set at the start with connections appended: no call removes or
    reorders a connection, and closing does not take it out. *)
Theorem sockets_append_only (W : World) (cs : list Call) :
  forall st, exists opened, sockets (run W cs st) = sockets st ++ opened.
Proof.
  induction cs as [| c cs IH]; intros st; cbn [run fold_left].
  - exists []. symmetry. apply app_nil_r.
  - destruct (IH (call W c st)) as [l Hl]. unfold run in Hl. rewrite Hl.
    destruct c as [cmd | status event | cmd]; cbn [call].
    + destruct (initMachineEvents_effect W cmd st) as (_ & _ & -> & _).
      rewrite <- app_assoc. eauto.
    + rewrite newMachineEvent_spec. cbv zeta. cbn [snd sockets].
      rewrite <- app_assoc. eauto.
    + rewrite closeMachineEvents_spec. cbn [snd add_trace sockets]. eauto.
Qed.

(** ** One command, start to end *)

Lemma run_single (W : World) (c : Call) (st : State) :
  run W [c] st = call W c st.
Proof. reflexivity. Qed.

(** In a run made of the pre-run hook, any number of publish calls and
    the post-run hook, the close attempts are exactly the connections
    the pre-run hook opened, each once and in the order they were
    dialed; each close comes after every write. *)
Theorem run_closes_what_it_opened (W : World) (cmd cmd' : string)
    (body : list (string * Event)) :
  let st := run W (PreRun cmd :: publishes body ++ [PostRun cmd']) initial in
  closes (trace st) = dial_conns W (fst (resolved W)) /\
  sockets st = dial_conns W (fst (resolved W)) /\
  exists before,
    trace st =
      before ++
      ALog Debug "Called machine %s.PersistentPostRunE(%s)"
        [LStr cmd'; LStr (String.concat " " (os_Args W))]
      :: map (fun c => AClose c (conn_Close W c))
           (dial_conns W (fst (resolved W))) /\
    closes before = [].
Proof.
  cbv zeta. change (PreRun cmd :: publishes body ++ [PostRun cmd'])
    with ([PreRun cmd] ++ publishes body ++ [PostRun cmd']).
  rewrite !run_app, !run_single. cbn [call].
  destruct (prehook_fresh W cmd) as (Hsp & Hso & _ & Hc & _).
  destruct (publishes_footprint W body _ Hsp) as (_ & Hso' & Hc' & _).
  rewrite closeMachineEvents_spec. cbn [snd add_trace trace sockets].
  rewrite closes_app. cbn [closes].
  rewrite closes_close_trace, Hc', Hc, Hso', Hso. cbn [app].
  split; [reflexivity |]. split; [reflexivity |].
  eexists. split; [reflexivity |]. rewrite Hc', Hc. reflexivity.
Qed.

(** ** A command without subscribers *)

Lemma deliveries_nil (W : World) (es : list Event) : deliveries W [] es = [].
Proof.
  induction es as [| e es IH]; cbn [deliveries flat_map]; auto.
  fold (deliveries W [] es). rewrite IH.
  destruct (json_Marshal W e); reflexivity.
Qed.

(** When the pre-run hook connects to nothing (no endpoint resolved, or
    every dial failed), the whole run writes nothing and closes
    nothing, whatever is published; each publish still stamps and
    serialises its event. *)
Theorem run_without_connections (W : World) (cmd cmd' : string)
    (body : list (string * Event)) :
  dial_conns W (fst (resolved W)) = [] ->
  let st := run W (PreRun cmd :: publishes body ++ [PostRun cmd']) initial in
  sockets st = [] /\
  writes (trace st) = [] /\
  closes (trace st) = [] /\
  map Status (marshalled (trace st)) = map fst body.
Proof.
  intros Hnone. cbv zeta.
  change (PreRun cmd :: publishes body ++ [PostRun cmd'])
    with ([PreRun cmd] ++ publishes body ++ [PostRun cmd']).
  rewrite !run_app, !run_single. cbn [call].
  destruct (prehook_fresh W cmd) as (Hsp & Hso & Hw & Hc & Hm).
  destruct (publishes_footprint W body _ Hsp)
    as (_ & Hso' & Hc' & es & Hes & Hst & Hwr).
  rewrite Hso, Hnone in Hso'. rewrite Hso, Hnone, Hw, deliveries_nil in Hwr.
  rewrite Hm in Hes. cbn [app] in Hes, Hwr.
  rewrite closeMachineEvents_spec. cbn [snd add_trace trace sockets].
  rewrite writes_app, closes_app, marshalled_app. cbn [writes closes marshalled].
  rewrite Hso', Hwr, Hc', Hc, Hes. cbn. rewrite app_nil_r. auto.
Qed.

Lemma run_without_connections_witness :
  let st :=
    run Demo.absent
      (PreRun "start" :: publishes [("starting", Demo.event)] ++ [PostRun "start"])
      initial in
  sockets st = [] /\
  writes (trace st) = [] /\
  closes (trace st) = [] /\
  map Status (marshalled (trace st)) = ["starting"].
Proof.
  apply (@run_without_connections Demo.absent "start" "start"
           [("starting", Demo.event)]).
  reflexivity.
Defined.

(** ** Failures of resolution *)

(** C6 (as amended). Without an override: when the runtime directory
    cannot be determined, and when the target subdirectory does not
    exist, [resolveEventSock] returns the empty sequence and no error.
    [WalkDir] reports the first failure of the walk. Whatever that
    failure is, the result holds no endpoint and the pre-run hook dials
    and opens nothing; a "does not exist" failure, at the root or at any
    directory met further down, is not reported (the result is empty
    with no error); every other failure is returned by
    [resolveEventSock] as its error, the pre-run hook returns that same
    error to its caller, and the command ends there: the runner returns
    what the hook returned, without running the body. *)
Theorem C6_resolution_failures (W : World) (cmd : string) (st : State) :
  os_LookupEnv W "PODMAN_MACHINE_EVENTS_SOCK" = None ->
  (forall err, util_GetRuntimeDir W = inr err ->
     fst (resolveEventSock W st) = ([], None)) /\
  (forall xdg, util_GetRuntimeDir W = inl xdg ->
     let root := filepath_Join W xdg "podman" in
     (forall st0, fst (fst (WalkDir W root fn [] st0)) = scan_failure W root) /\
     (os_Lstat W root = inr ENOENT ->
        fst (resolveEventSock W st) = ([], None)) /\
     (forall err,
        scan_failure W root = Some err ->
        fst (resolveEventSock W st) =
          ([], if Is_ErrNotExist err then None else Some err) /\
        fst (initMachineEvents W cmd st) =
          (if Is_ErrNotExist err then None else Some err) /\
        sockets (snd (initMachineEvents W cmd st)) = sockets st /\
        dials (trace (snd (initMachineEvents W cmd st))) = dials (trace st) /\
        (Is_ErrNotExist err = false ->
         forall body outcome,
           executeMachineCmd W cmd body outcome st =
           initMachineEvents W cmd st))).
Proof.
  intros Henv. split.
  - intros err Hxdg. rewrite resolveEventSock_cases, Henv, Hxdg. reflexivity.
  - intros xdg Hxdg root. split; [| split].
    + intros st0. rewrite WalkDir_fn. reflexivity.
    + intros Hstat. rewrite resolveEventSock_cases, Henv, Hxdg.
      unfold scan_failure. fold root. rewrite Hstat. reflexivity.
    + intros err Hfail.
      assert (Hres : resolved W =
                ([], if Is_ErrNotExist err then None else Some err)).
      { unfold resolved. rewrite resolveEventSock_cases, Henv, Hxdg.
        fold root. cbv zeta. rewrite Hfail. reflexivity. }
      pose proof (initMachineEvents_spec W cmd st) as Hinit.
      cbv zeta in Hinit. rewrite Hres in Hinit.
      destruct (resolve_trace_quiet W) as [Hquiet _].
      split; [rewrite resolveEventSock_spec, Hres; reflexivity |].
      destruct (Is_ErrNotExist err) eqn:Hne; rewrite Hinit;
        cbn [fst snd add_trace sockets trace dial_conns dial_trace flat_map].
      * rewrite !app_nil_r, dials_app. cbn [dials].
        rewrite Hquiet, app_nil_r.
        repeat split; auto. discriminate.
      * rewrite dials_app. cbn [dials]. rewrite Hquiet, app_nil_r.
        repeat split; auto.
        intros _ body outcome. unfold executeMachineCmd, bind.
        rewrite Hinit. reflexivity.
Qed.

Lemma C6_resolution_failures_witness :
  fst (resolveEventSock Demo.homeless initial) = ([], None) /\
  fst (resolveEventSock Demo.absent initial) = ([], None) /\
  fst (initMachineEvents Demo.locked "start" initial) =
    Some (PathError "open" "/run/user/1000/podman" EACCES) /\
  fst (resolveEventSock Samples.racing initial) = ([], None).
Proof.
  split; [| split; [| split]].
  - apply (proj1 (@C6_resolution_failures Demo.homeless "start" initial eq_refl)
             (errorString "XDG_RUNTIME_DIR not set")).
    reflexivity.
  - apply (proj1 (proj2
             (proj2 (@C6_resolution_failures Demo.absent "start" initial eq_refl)
                "/run/user/1000" eq_refl))).
    reflexivity.
  - apply (proj1 (proj2
             (proj2 (proj2
                (proj2 (@C6_resolution_failures Demo.locked "start" initial
                          eq_refl)
                   "/run/user/1000" eq_refl))
                (PathError "open" "/run/user/1000/podman" EACCES) eq_refl))).
  - apply (proj1
             (proj2 (proj2
                (proj2 (@C6_resolution_failures Samples.racing "start" initial
                          eq_refl)
                   "/run/user/1000" eq_refl))
                (PathError "open" "/run/user/1000/podman/cache" ENOENT)
                eq_refl)).
Defined.

(** C6 (as worded) fails: the target subdirectory exists and holds an
    event socket, a directory below it has vanished when it is read;
    the walk fails with that "does not exist" error, and
    [resolveEventSock] returns the empty sequence and no error. *)
Lemma C6_nested_not_exist_counterexample :
  os_Lstat Samples.racing "/run/user/1000/podman" = inl Samples.vanishing /\
  scan_failure Samples.racing "/run/user/1000/podman" =
    Some (PathError "open" "/run/user/1000/podman/cache" ENOENT) /\
  fst (resolveEventSock Samples.racing initial) = ([], None) /\
  ~ Spec.walk_errors_returned Samples.racing.
Proof.
  split; [reflexivity |]. split; [reflexivity |]. split; [reflexivity |].
  intros H.
  specialize (H "/run/user/1000" Samples.vanishing
                (PathError "open" "/run/user/1000/podman/cache" ENOENT)
                eq_refl eq_refl eq_refl eq_refl).
  discriminate H.
Qed.
